(** * hectoday/http: the request-dispatch pipeline

    A shallow embedding of [packages/http/src]: [internal/validation.ts]
    (parseQuery, parseBody, validateInputs), the module of [group],
    [router.ts] (createRouter, match, handle) and [runtime.ts]
    (setupHttp, fetch, defaultOnError), followed by the properties of the
    dispatch pipeline.

    Conventions of the embedding.
    - A JavaScript value of type [unknown] is a [JsVal]; [Record<string, T>]
      is a [gmap string T]; an optional property is an [option].
    - [async] functions are awaited one after the other, so a computation
      is a pair of the calls it made, in order, and of its outcome, which
      is either a thrown value or a result (the monad [M]).
    - Callbacks supplied by the application (guards, handlers, hooks, the
      validator adapter) are functions of their arguments; a callback that
      may throw returns a sum.  The framework records an [Event] each time
      it calls one of them, and each time it reads the request body.
    - The host's built-ins ([JSON.parse], [URLPattern], [URL], and the
      properties that a plain object inherits) are the fields of the class
      [Runtime]. *)

From stdpp Require Import gmap strings list fin_maps option pretty.

#[local] Set Warnings "-register-all,-clear-no-such-hyp".
#[local] Open Scope string_scope.
#[local] Open Scope list_scope.

(** ** JavaScript values *)

Inductive ErrorClass := SyntaxError | TypeError | OtherError.

Record ErrorObj := { err_class : ErrorClass; err_message : string }.

Inductive JsVal : Type :=
| JUndefined
| JNull
| JBool (b : bool)
| JNum (n : Z)
| JStr (s : string)
| JArr (items : list JsVal)
| JObj (fields : gmap string JsVal)
| JError (e : ErrorObj)
| JBuiltin (name : string).

(** [v !== undefined] *)
Definition is_undefined (v : JsVal) : bool :=
  match v with JUndefined => true | _ => false end.

(** [null] and [undefined]: reading a property of these throws. *)
Definition is_nullish (v : JsVal) : bool :=
  match v with JUndefined | JNull => true | _ => false end.

(** Values that can carry a property; assigning a property to any other
    value throws in a module (strict mode).  [JBuiltin name] is an object of
    the host, known by its name: a built-in function or prototype. *)
Definition is_object (v : JsVal) : bool :=
  match v with JArr _ | JObj _ | JError _ | JBuiltin _ => true | _ => false end.

(** [error instanceof SyntaxError] *)
Definition instanceof_SyntaxError (v : JsVal) : option ErrorObj :=
  match v with
  | JError e => match err_class e with SyntaxError => Some e | _ => None end
  | _ => None
  end.

(** ** validation-types.ts *)

Inductive ValidationPart := PartParams | PartQuery | PartBody.

Record ValidationIssue := {
  issue_part : ValidationPart;
  issue_path : list string;
  issue_message : string;
  issue_code : option string;
}.

Inductive SafeParseResult :=
| SafeParseSuccess (data : JsVal)
| SafeParseFailure (error : JsVal).

Record SchemaLike := { safeParse : JsVal → SafeParseResult }.

(** [ValidateErr.error] is optional: an absent one reads as [JUndefined]. *)
Inductive ValidateResult :=
| ValidateOk (value : JsVal)
| ValidateErr (issues : list ValidationIssue) (error : JsVal).

(** The adapter returns a [ValidateResult], as its interface says; an adapter
    that throws is outside this contract. *)
Record Validator := {
  validate : SchemaLike → JsVal → ValidationPart → ValidateResult;
}.

Record RequestSchemas := {
  schema_params : option SchemaLike;
  schema_query : option SchemaLike;
  schema_body : option SchemaLike;
}.

Record Received := {
  received_params : JsVal;
  received_query : JsVal;
  received_body : JsVal;
}.

(** [Partial<Record<ValidationPart, unknown>>] *)
Record PartErrors := {
  errors_params : option JsVal;
  errors_query : option JsVal;
  errors_body : option JsVal;
}.

Inductive InputState :=
| InputOk (params query body : JsVal)
| InputErr (failed : list ValidationPart) (issues : list ValidationIssue)
           (received : Received) (errors : option PartErrors).

Definition input_ok (i : InputState) : bool :=
  match i with InputOk _ _ _ => true | InputErr _ _ _ _ => false end.

(** ** route.ts *)

Inductive ResponseBody := BodyText (text : string) | BodyJson (v : JsVal).

Record Response := { status : nat; resp_body : ResponseBody }.

(** The request.  [req_body] is [None] when [request.body] is null;
    otherwise it holds what [await request.text()] does: it throws, or it
    gives the whole body as text. *)
Record Request := {
  req_method : string;
  req_url : string;
  req_body : option (JsVal + string);
}.

(** A value of the object that [parseQuery] returns: a string, an array of
    strings, or the array [[first, ...rest]] that starts with a value found on
    the prototype chain. *)
Inductive QueryValue :=
| QString (s : string)
| QArray (l : list string)
| QInherited (first : JsVal) (rest : list string).

Record RawValues := {
  raw_params : gmap string (option string);
  raw_query : gmap string QueryValue;
  raw_body : JsVal;
}.

Record Context := {
  ctx_request : Request;
  ctx_raw : RawValues;
  ctx_input : InputState;
  ctx_locals : gmap string JsVal;
}.

(** A thrown value, with its [context] property when it has a truthy one.
    [thrown_readonly] tells that the value is an object on which the
    assignment [error.context = ...] fails: it is frozen or not extensible, or
    its [context] is read-only.  (An object that runs code of its own on the
    assignment, a setter or a proxy, is not described.) *)
Record Thrown := {
  thrown_value : JsVal;
  thrown_context : option Context;
  thrown_readonly : bool;
}.

Inductive GuardResult :=
| Allow (locals : option (gmap string JsVal))
| Deny (deny : Response).

Definition GuardFn : Type := Context → Thrown + GuardResult.
Definition HandlerFn : Type := Context → Thrown + Response.

Record Handler := {
  h_method : string;
  h_path : string;
  h_handler : HandlerFn;
  h_guards : option (list GuardFn);
  h_request : option RequestSchemas;
}.

(** ** runtime.ts: the hooks *)

Definition OnErrorHandler : Type := Thrown → Context → Thrown + Response.
Definition OnRequestHandler : Type := Request → Thrown + option (gmap string JsVal).
Definition OnResponseHandler : Type := Context → Response → Thrown + Response.

(** ** Calls made by the framework, and the monad of computations *)

Inductive Event :=
| EvReadBody (request : Request)
| EvValidate (schema : SchemaLike) (input : JsVal) (part : ValidationPart)
| EvGuard (guard : GuardFn) (c : Context)
| EvHandler (handler : HandlerFn) (c : Context)
| EvOnRequest (request : Request)
| EvOnResponse (c : Context) (response : Response)
| EvOnError (error : Thrown) (c : Context)
| EvConsoleError (error : Thrown).

Definition M (A : Type) : Type := (list Event * (Thrown + A))%type.

Definition ret {A} (a : A) : M A := ([], inr a).

Definition bind {A B} (m : M A) (f : A → M B) : M B :=
  match m with
  | (t1, inl e) => (t1, inl e)
  | (t1, inr a) => let '(t2, r) := f a in (t1 ++ t2, r)
  end.

Notation "x <- m ; k" := (bind m (λ x : _, k))
  (at level 20, m at level 100, k at level 200, only parsing).
Notation "' p <- m ; k" := (bind m (λ p : _, k))
  (at level 20, p pattern, m at level 100, k at level 200, only parsing).

Definition throw {A} (e : Thrown) : M A := ([], inl e).

Definition log (ev : Event) : M unit := ([ev], inr tt).

(** Run a callback that may throw. *)
Definition run {A} (r : Thrown + A) : M A := ([], r).

Definition try_catch {A} (m : M A) (h : Thrown → M A) : M A :=
  match m with
  | (t1, inl e) => let '(t2, r) := h e in (t1 ++ t2, r)
  | (t1, inr a) => (t1, inr a)
  end.

Definition trace {A} (m : M A) : list Event := m.1.
Definition outcome {A} (m : M A) : Thrown + A := m.2.

(** [new Error(msg)], [new SyntaxError(msg)] thrown or stored. *)
Definition new_Error (cls : ErrorClass) (msg : string) : ErrorObj :=
  {| err_class := cls; err_message := msg |}.

Definition thrown_error (e : ErrorObj) : Thrown :=
  {| thrown_value := JError e; thrown_context := None; thrown_readonly := false |}.

(** The [TypeError] the engine raises itself; its message is the engine's. *)
Definition engine_TypeError : Thrown := thrown_error (new_Error TypeError EmptyString).

(** ** The host runtime *)

Class Runtime := {
  (** [JSON.parse(text)] *)
  JSON_parse : string → Thrown + JsVal;
  (** [new URLPattern({ pathname })] and [pattern.exec(url)]; the latter
      gives the entries of [result.pathname.groups] in enumeration order. *)
  URLPattern : Type;
  URLPattern_new : string → Thrown + URLPattern;
  URLPattern_exec : URLPattern → string → option (list (string * option string));
  (** The pairs of [new URL(url).searchParams], for the URL of a request. *)
  URL_searchParams : string → list (string * string);
  (** The properties that a plain object and an array inherit: the names of
      the data properties of [Object.prototype] and of [Array.prototype], which
      hold built-in functions, and whether [Object.prototype] has the accessor
      [__proto__] (Node, Bun and browsers have it, Deno does not). *)
  Object_prototype : string → bool;
  Array_prototype : string → bool;
  proto_accessor : bool;
}.

Section Pipeline.
Context `{!Runtime}.

(** ** internal/validation.ts *)

(** The built-in function that [owner] holds at [key]. *)
Definition builtin (owner key : string) : JsVal :=
  JBuiltin (String.append owner (String.append "." key)).

(** The own properties of an array: its elements, at the decimal numerals of
    their indices, and its length. *)
Fixpoint array_index (items : list JsVal) (i : nat) (key : string) : option JsVal :=
  match items with
  | [] => None
  | item :: rest =>
      if decide (pretty i = key) then Some item else array_index rest (S i) key
  end.

Definition array_own (items : list JsVal) (key : string) : option JsVal :=
  if decide (key = "length") then Some (JNum (Z.of_nat (length items)))
  else array_index items 0 key.

(** The object [result] of [parseQuery] is the map of its own properties.
    Where [Object.prototype] has the accessor [__proto__], an assignment to
    [result["__proto__"]] makes no own property: it replaces the prototype of
    [result] by the array assigned, and a read gives the prototype.  The map
    holds that array at ["__proto__"]. *)
Definition prototype_array (result : gmap string QueryValue) : option (list JsVal) :=
  if proto_accessor then
    match result !! "__proto__" with
    | Some (QInherited first rest) => Some (first :: (JStr <$> rest))
    | _ => None
    end
  else None.

(** [result[key]] for a key that is no own property of [result]: what the
    prototype chain gives, [None] for [undefined]. *)
Definition inherited (result : gmap string QueryValue) (key : string) : option JsVal :=
  match prototype_array result with
  | Some items =>
      match array_own items key with
      | Some v => Some v
      | None =>
          if Array_prototype key then Some (builtin "Array.prototype" key)
          else if Object_prototype key then Some (builtin "Object.prototype" key)
          else None
      end
  | None =>
      if Object_prototype key then Some (builtin "Object.prototype" key) else None
  end.

(** One turn of the loop of [parseQuery]. *)
Definition parseQuery_step (result : gmap string QueryValue) (key value : string)
    : gmap string QueryValue :=
  if proto_accessor && bool_decide (key = "__proto__") then
    match result !! key with
    | Some (QInherited first rest) => <[key := QInherited first (rest ++ [value])]> result
    | _ => <[key := QInherited (JBuiltin "Object.prototype") [value]]> result
    end
  else
    match result !! key with
    | Some (QString existing) => <[key := QArray [existing; value]]> result
    | Some (QArray existing) => <[key := QArray (existing ++ [value])]> result
    | Some (QInherited first rest) => <[key := QInherited first (rest ++ [value])]> result
    | None =>
        match inherited result key with
        | None => <[key := QString value]> result
        | Some (JStr existing) => <[key := QArray [existing; value]]> result
        | Some existing => <[key := QInherited existing [value]]> result
        end
    end.

(** [parseQuery]: a repeated key becomes an array of its values, in the
    order of the query string.  [result[key]] looks the key up on [result] and
    then on its prototype chain, so the first value of a key that [result]
    inherits is put in an array after the inherited value.  The URL is the
    URL of a request, which [new URL] accepts. *)
Definition parseQuery (url : string) : gmap string QueryValue :=
  foldl (λ (result : gmap string QueryValue) '(key, value),
           parseQuery_step result key value)
        ∅ (URL_searchParams url).

Record ParsedBody := { parsed : JsVal; error : option ErrorObj }.

(** The [catch] clause of [parseBody]. *)
Definition parseBody_catch (thrown : JsVal) : ParsedBody :=
  {| parsed := JUndefined;
     error := Some (match instanceof_SyntaxError thrown with
                    | Some e => e
                    | None => new_Error SyntaxError "Invalid JSON"
                    end) |}.

Definition parseBody (request : Request) : M ParsedBody :=
  match req_body request with
  | None => ret {| parsed := JUndefined; error := None |}
  | Some stream =>
      try_catch
        (_ <- log (EvReadBody request);
         text <- run (sum_map (λ v, {| thrown_value := v; thrown_context := None;
                                      thrown_readonly := false |}) id stream);
         if decide (text = EmptyString)
         then ret {| parsed := JUndefined; error := None |}
         else
           value <- run (JSON_parse text);
           ret {| parsed := value; error := None |})
        (λ e, ret (parseBody_catch (thrown_value e)))
  end.

(** The [raw] argument of [validateInputs]. *)
Record RawInput := {
  in_params : gmap string JsVal;
  in_query : gmap string JsVal;
  in_body : JsVal;
}.

Definition no_errors : PartErrors :=
  {| errors_params := None; errors_query := None; errors_body := None |}.

Definition set_error (part : ValidationPart) (v : JsVal) (errors : PartErrors) : PartErrors :=
  match part with
  | PartParams => {| errors_params := Some v; errors_query := errors_query errors;
                     errors_body := errors_body errors |}
  | PartQuery => {| errors_params := errors_params errors; errors_query := Some v;
                    errors_body := errors_body errors |}
  | PartBody => {| errors_params := errors_params errors; errors_query := errors_query errors;
                   errors_body := Some v |}
  end.

(** [Object.keys(errors).length] *)
Definition errors_keys (errors : PartErrors) : list ValidationPart :=
  (if errors_params errors is Some _ then [PartParams] else []) ++
  (if errors_query errors is Some _ then [PartQuery] else []) ++
  (if errors_body errors is Some _ then [PartBody] else []).

Definition missing_validator_message : string :=
  "Validator is required when route defines request schemas. " ++
  "Please provide a validator in setupHttp() configuration.".

(** [validator.validate(schema, input, part)] *)
Definition call_validate (validator : Validator) (schema : SchemaLike)
    (input : JsVal) (part : ValidationPart) : M ValidateResult :=
  _ <- log (EvValidate schema input part);
  ret (validate validator schema input part).

Definition invalid_json_issue : ValidationIssue :=
  {| issue_part := PartBody; issue_path := []; issue_message := "Invalid JSON";
     issue_code := None |}.

Definition validateInputs (validator : option Validator)
    (schemas : option RequestSchemas) (raw : RawInput)
    (bodyParseError : option ErrorObj) : M InputState :=
  match schemas with
  | None => ret (InputOk (JObj (in_params raw)) (JObj (in_query raw)) (in_body raw))
  | Some schemas =>
  match validator with
  | None => throw (thrown_error (new_Error OtherError missing_validator_message))
  | Some validator =>
      let failed : list ValidationPart := [] in
      let issues : list ValidationIssue := [] in
      let errors := no_errors in
      let validatedParams := JObj (in_params raw) in
      let validatedQuery := JObj (in_query raw) in
      let validatedBody := in_body raw in
      (* Validate params *)
      '(failed, issues, errors, validatedParams) <-
        match schema_params schemas with
        | Some schema =>
            result <- call_validate validator schema (JObj (in_params raw)) PartParams;
            match result with
            | ValidateOk value => ret (failed, issues, errors, value)
            | ValidateErr result_issues result_error =>
                ret (failed ++ [PartParams], issues ++ result_issues,
                      if is_undefined result_error then errors
                      else set_error PartParams result_error errors,
                      validatedParams)
            end
        | None => ret (failed, issues, errors, validatedParams)
        end;
      (* Validate query *)
      '(failed, issues, errors, validatedQuery) <-
        match schema_query schemas with
        | Some schema =>
            result <- call_validate validator schema (JObj (in_query raw)) PartQuery;
            match result with
            | ValidateOk value => ret (failed, issues, errors, value)
            | ValidateErr result_issues result_error =>
                ret (failed ++ [PartQuery], issues ++ result_issues,
                      if is_undefined result_error then errors
                      else set_error PartQuery result_error errors,
                      validatedQuery)
            end
        | None => ret (failed, issues, errors, validatedQuery)
        end;
      (* Validate body *)
      '(failed, issues, errors, validatedBody) <-
        match schema_body schemas with
        | Some schema =>
            match bodyParseError with
            | Some bodyParseError =>
                ret (failed ++ [PartBody], issues ++ [invalid_json_issue],
                      set_error PartBody (JError bodyParseError) errors,
                      validatedBody)
            | None =>
                result <- call_validate validator schema (in_body raw) PartBody;
                match result with
                | ValidateOk value => ret (failed, issues, errors, value)
                | ValidateErr result_issues result_error =>
                    ret (failed ++ [PartBody], issues ++ result_issues,
                          if is_undefined result_error then errors
                          else set_error PartBody result_error errors,
                          validatedBody)
                end
            end
        | None => ret (failed, issues, errors, validatedBody)
        end;
      if decide (0 < length failed)
      then ret (InputErr failed issues
                   {| received_params := JObj (in_params raw);
                      received_query := JObj (in_query raw);
                      received_body := in_body raw |}
                   (if decide (0 < length (errors_keys errors)) then Some errors else None))
      else ret (InputOk validatedParams validatedQuery validatedBody)
  end
  end.

(** ** group *)

(** [HandlerGroup = Handler | Handler[] | HandlerGroup[]] *)
Inductive HandlerGroup :=
| HGHandler (h : Handler)
| HGArray (items : list HandlerGroup).

Record GroupOptions := {
  handlers : list HandlerGroup;
  guards : option (list GuardFn);
}.

(** The loop of [group]: an array item is flattened by the recursive call
    [group({ handlers: item })], which has no guards to apply. *)
Fixpoint group_item (item : HandlerGroup) : list Handler :=
  match item with
  | HGArray items =>
      (fix loop (handlers : list HandlerGroup) : list Handler :=
         match handlers with
         | [] => []
         | item :: rest => group_item item ++ loop rest
         end) items
  | HGHandler h => [h]
  end.

Definition group_loop (handlers : list HandlerGroup) : list Handler :=
  group_item (HGArray handlers).

Definition group (options : GroupOptions) : list Handler :=
  let result := group_loop (handlers options) in
  match guards options with
  | Some guards =>
      if decide (0 < length guards)
      then map (λ handler,
                  {| h_method := h_method handler;
                     h_path := h_path handler;
                     h_handler := h_handler handler;
                     h_guards := Some (guards ++ default [] (h_guards handler));
                     h_request := h_request handler |})
               result
      else result
  | None => result
  end.

(** ** router.ts *)

Record CompiledRoute := { cr_handler : Handler; cr_pattern : URLPattern }.

Record RouteMatch := { rm_handler : Handler; rm_params : gmap string (option string) }.

Record RouterResponse := { rr_response : Response; rr_context : Context }.

Record Router := {
  routes : list CompiledRoute;
  router_validator : option Validator;
}.

(** [handlers.map(h => ({ handler: h, pattern: new URLPattern(...) }))] *)
Fixpoint compile_routes (handlers : list Handler) : Thrown + list CompiledRoute :=
  match handlers with
  | [] => inr []
  | h :: rest =>
      match URLPattern_new (h_path h) with
      | inl e => inl e
      | inr pattern =>
          match compile_routes rest with
          | inl e => inl e
          | inr compiled => inr ({| cr_handler := h; cr_pattern := pattern |} :: compiled)
          end
      end
  end.

Definition createRouter (handlers : list Handler) (validator : option Validator)
    : Thrown + Router :=
  match compile_routes handlers with
  | inl e => inl e
  | inr compiled => inr {| routes := compiled; router_validator := validator |}
  end.

(** [for (const key in groups) params[key] = groups[key]] *)
Definition copy_groups (groups : list (string * option string)) : gmap string (option string) :=
  foldl (λ (params : gmap string (option string)) '(key, value), <[key := value]> params)
        ∅ groups.

Fixpoint match_routes (routes : list CompiledRoute) (method url : string) : option RouteMatch :=
  match routes with
  | [] => None
  | route :: rest =>
      if decide (h_method (cr_handler route) ≠ "*" ∧ h_method (cr_handler route) ≠ method)
      then match_routes rest method url
      else
        match URLPattern_exec (cr_pattern route) url with
        | Some groups =>
            Some {| rm_handler := cr_handler route; rm_params := copy_groups groups |}
        | None => match_routes rest method url
        end
  end.

Definition match_ (router : Router) (method url : string) : option RouteMatch :=
  match_routes (routes router) method url.

(** [(error as any).context = context]: the error with the context attached;
    on a value that is not an object, and on an object that rejects the
    assignment, the assignment itself throws a TypeError (modules are strict),
    and that is what propagates. *)
Definition rethrown (context : Context) (error : Thrown) : Thrown :=
  if is_object (thrown_value error) && negb (thrown_readonly error)
  then {| thrown_value := thrown_value error; thrown_context := Some context;
          thrown_readonly := false |}
  else engine_TypeError.

(** [catch (error) { (error as any).context = context; throw error; }] *)
Definition attach_context {A} (context : Context) (error : Thrown) : M A :=
  throw (rethrown context error).

(** The guard loop of [handle]: [inl] is the [return] of a denial, [inr] the
    context with which the loop ends. *)
Fixpoint run_guards (guards : list GuardFn) (context : Context)
    : M (RouterResponse + Context) :=
  match guards with
  | [] => ret (inr context)
  | guard :: rest =>
      guardResult <- try_catch (_ <- log (EvGuard guard context); run (guard context))
                               (attach_context context);
      match guardResult with
      | Deny deny => ret (inl {| rr_response := deny; rr_context := context |})
      | Allow (Some locals) =>
          run_guards rest
            {| ctx_request := ctx_request context;
               ctx_raw := ctx_raw context;
               ctx_input := ctx_input context;
               ctx_locals := locals ∪ ctx_locals context |}
      | Allow None => run_guards rest context
      end
  end.

Definition param_value (v : option string) : JsVal :=
  match v with Some s => JStr s | None => JUndefined end.

Definition query_value (v : QueryValue) : JsVal :=
  match v with
  | QString s => JStr s
  | QArray l => JArr (JStr <$> l)
  | QInherited first rest => JArr (first :: (JStr <$> rest))
  end.

Definition handle (router : Router) (request : Request)
    (initialLocals : gmap string JsVal) : M RouterResponse :=
  match match_ router (req_method request) (req_url request) with
  | None =>
      let notFoundContext :=
        {| ctx_request := request;
           ctx_raw := {| raw_params := ∅; raw_query := ∅; raw_body := JUndefined |};
           ctx_input := InputOk (JObj ∅) (JObj ∅) JUndefined;
           ctx_locals := ∅ |} in
      ret {| rr_response := {| status := 404; resp_body := BodyText "Not Found" |};
             rr_context := notFoundContext |}
  | Some matched =>
      let query := parseQuery (req_url request) in
      '(bodyValue, bodyParseError) <-
        match h_request (rm_handler matched) ≫= schema_body with
        | Some _ =>
            result <- parseBody request;
            ret (parsed result, error result)
        | None => ret (JUndefined, None)
        end;
      input <- validateInputs (router_validator router) (h_request (rm_handler matched))
                 {| in_params := param_value <$> rm_params matched;
                    in_query := query_value <$> query;
                    in_body := bodyValue |}
                 bodyParseError;
      let context :=
        {| ctx_request := request;
           ctx_raw := {| raw_params := rm_params matched; raw_query := query;
                         raw_body := bodyValue |};
           ctx_input := input;
           ctx_locals := initialLocals |} in
      guarded <-
        match h_guards (rm_handler matched) with
        | Some guards =>
            if decide (0 < length guards) then run_guards guards context
            else ret (inr context)
        | None => ret (inr context)
        end;
      match guarded with
      | inl denied => ret denied
      | inr context =>
          response <- try_catch
                        (_ <- log (EvHandler (h_handler (rm_handler matched)) context);
                         run (h_handler (rm_handler matched) context))
                        (attach_context context);
          ret {| rr_response := response; rr_context := context |}
      end
  end.

(** ** runtime.ts *)

Definition defaultOnError (error : Thrown) (c : Context) : M Response :=
  _ <- log (EvConsoleError error);
  ret {| status := 500;
         resp_body := BodyJson (JObj {[ "error" := JStr "Internal Server Error" ]}) |}.

Record Config := {
  config_handlers : list Handler;
  config_validator : option Validator;
  config_onError : option OnErrorHandler;
  config_onRequest : option OnRequestHandler;
  config_onResponse : option OnResponseHandler;
}.

(** The argument of [setupHttp]: an array of handlers, or a configuration. *)
Inductive SetupArg := HandlersOnly (l : list Handler) | WithConfig (config : Config).

(** What the closure [fetch] captures. *)
Record App := {
  app_router : Router;
  app_onError : Thrown → Context → M Response;
  app_onRequest : option OnRequestHandler;
  app_onResponse : option OnResponseHandler;
}.

(** The [try] block of [fetch].  [response.context] is an object whenever
    [handle] returns, so the test of the response hook is on the hook alone. *)
Definition fetch_try (app : App) (request : Request) : M Response :=
  initialLocals <-
    match app_onRequest app with
    | Some onRequest => _ <- log (EvOnRequest request); run (onRequest request)
    | None => ret (Some ∅)
    end;
  response <- handle (app_router app) request (default ∅ initialLocals);
  match app_onResponse app with
  | Some onResponse =>
      _ <- log (EvOnResponse (rr_context response) (rr_response response));
      run (onResponse (rr_context response) (rr_response response))
  | None => ret (rr_response response)
  end.

(** The [catch] clause of [fetch]. *)
Definition fetch_catch (app : App) (request : Request) (error : Thrown) : M Response :=
  if is_nullish (thrown_value error) then throw engine_TypeError
  else
    let context :=
      match thrown_context error with
      | Some context => context
      | None =>
          {| ctx_request := request;
             ctx_raw := {| raw_params := ∅; raw_query := ∅; raw_body := JUndefined |};
             ctx_input := InputOk (JObj ∅) (JObj ∅) JUndefined;
             ctx_locals := ∅ |}
      end in
    _ <- log (EvOnError error context);
    app_onError app error context.

Definition fetch (app : App) (request : Request) : M Response :=
  try_catch (fetch_try app request) (fetch_catch app request).

Definition setupHttp (config : SetupArg) : Thrown + App :=
  let handlers := match config with HandlersOnly l => l | WithConfig c => config_handlers c end in
  let validator := match config with HandlersOnly _ => None | WithConfig c => config_validator c end in
  let onError :=
    match config with
    | HandlersOnly _ => defaultOnError
    | WithConfig c =>
        match config_onError c with
        | Some h => λ error context, run (h error context)
        | None => defaultOnError
        end
    end in
  let onRequest := match config with HandlersOnly _ => None | WithConfig c => config_onRequest c end in
  let onResponse := match config with HandlersOnly _ => None | WithConfig c => config_onResponse c end in
  match createRouter handlers validator with
  | inl e => inl e
  | inr router =>
      inr {| app_router := router; app_onError := onError;
             app_onRequest := onRequest; app_onResponse := onResponse |}
  end.

End Pipeline.

(** ** route.ts: the route factory *)

Record RouteConfig := {
  resolve : HandlerFn;
  rc_guards : option (list GuardFn);
  rc_request : option RequestSchemas;
}.

Module route.

Definition on (method path : string) (config : RouteConfig) : Handler :=
  {| h_method := method; h_path := path; h_handler := resolve config;
     h_guards := rc_guards config; h_request := rc_request config |}.

Definition get (path : string) (config : RouteConfig) : Handler :=
  {| h_method := "GET"; h_path := path; h_handler := resolve config;
     h_guards := rc_guards config; h_request := rc_request config |}.

Definition head (path : string) (config : RouteConfig) : Handler :=
  {| h_method := "HEAD"; h_path := path; h_handler := resolve config;
     h_guards := rc_guards config; h_request := rc_request config |}.

Definition post (path : string) (config : RouteConfig) : Handler :=
  {| h_method := "POST"; h_path := path; h_handler := resolve config;
     h_guards := rc_guards config; h_request := rc_request config |}.

Definition put (path : string) (config : RouteConfig) : Handler :=
  {| h_method := "PUT"; h_path := path; h_handler := resolve config;
     h_guards := rc_guards config; h_request := rc_request config |}.

Definition patch (path : string) (config : RouteConfig) : Handler :=
  {| h_method := "PATCH"; h_path := path; h_handler := resolve config;
     h_guards := rc_guards config; h_request := rc_request config |}.

Definition delete (path : string) (config : RouteConfig) : Handler :=
  {| h_method := "DELETE"; h_path := path; h_handler := resolve config;
     h_guards := rc_guards config; h_request := rc_request config |}.

Definition options (path : string) (config : RouteConfig) : Handler :=
  {| h_method := "OPTIONS"; h_path := path; h_handler := resolve config;
     h_guards := rc_guards config; h_request := rc_request config |}.

Definition all (path : string) (config : RouteConfig) : Handler :=
  {| h_method := "*"; h_path := path; h_handler := resolve config;
     h_guards := rc_guards config; h_request := rc_request config |}.

End route.

(** * The specification's vocabulary *)

Section Vocabulary.
Context `{!Runtime}.

(** ** The validation gate, as the specification words it *)

Definition all_parts : list ValidationPart := [PartParams; PartQuery; PartBody].

Definition part_schema (schemas : option RequestSchemas) (part : ValidationPart)
    : option SchemaLike :=
  schemas ≫= match part with
             | PartParams => schema_params
             | PartQuery => schema_query
             | PartBody => schema_body
             end.

Definition part_raw (raw : RawInput) (part : ValidationPart) : JsVal :=
  match part with
  | PartParams => JObj (in_params raw)
  | PartQuery => JObj (in_query raw)
  | PartBody => in_body raw
  end.

(** What becomes of one part: it has no schema, or it passes with a
    validated value, or it fails with issues. *)
Inductive PartOutcome :=
| NotDeclared
| Passed (value : JsVal)
| Failed (issues : list ValidationIssue).

(** The evaluation of one part looks at that part alone. *)
Definition evaluate_part (validator : Validator) (schemas : option RequestSchemas)
    (raw : RawInput) (bodyParseError : option ErrorObj) (part : ValidationPart)
    : PartOutcome :=
  match part_schema schemas part with
  | None => NotDeclared
  | Some schema =>
      match part, bodyParseError with
      | PartBody, Some _ => Failed [invalid_json_issue]
      | _, _ =>
          match validate validator schema (part_raw raw part) part with
          | ValidateOk value => Passed value
          | ValidateErr issues _ => Failed issues
          end
      end
  end.

Definition part_failed (o : PartOutcome) : bool :=
  match o with Failed _ => true | _ => false end.

Definition part_issues (o : PartOutcome) : list ValidationIssue :=
  match o with Failed issues => issues | _ => [] end.

Definition part_value (raw : RawInput) (part : ValidationPart) (o : PartOutcome) : JsVal :=
  match o with Passed value => value | _ => part_raw raw part end.

(** The calls of the adapter that the evaluation of one part makes. *)
Definition part_calls (schemas : option RequestSchemas) (raw : RawInput)
    (bodyParseError : option ErrorObj) (part : ValidationPart) : list Event :=
  match part_schema schemas part with
  | None => []
  | Some schema =>
      match part, bodyParseError with
      | PartBody, Some _ => []
      | _, _ => [EvValidate schema (part_raw raw part) part]
      end
  end.

(** The failed parts and the issues of an input state (none on success). *)
Definition state_failed (i : InputState) : list ValidationPart :=
  match i with InputErr failed _ _ _ => failed | InputOk _ _ _ => [] end.

Definition state_issues (i : InputState) : list ValidationIssue :=
  match i with InputErr _ issues _ _ => issues | InputOk _ _ _ => [] end.


Definition received_of (raw : RawInput) : Received :=
  {| received_params := JObj (in_params raw);
     received_query := JObj (in_query raw);
     received_body := in_body raw |}.

(** ** Guard chains *)

(** The guards, the handlers and the body reads of a trace, in order. *)
Definition guard_calls (tr : list Event) : list (GuardFn * Context) :=
  omap (λ ev, match ev with EvGuard g c => Some (g, c) | _ => None end) tr.

Definition handler_calls (tr : list Event) : list (HandlerFn * Context) :=
  omap (λ ev, match ev with EvHandler h c => Some (h, c) | _ => None end) tr.

Definition body_reads (tr : list Event) : list Request :=
  omap (λ ev, match ev with EvReadBody r => Some r | _ => None end) tr.

(** The locals a guard call contributes: its patch when it allows with one. *)
Definition patch_of (call : GuardFn * Context) : gmap string JsVal :=
  match call.1 call.2 with
  | inr (Allow (Some locals)) => locals
  | _ => ∅
  end.

(** The union of the initial locals and of the patches of [calls], a later
    patch taking precedence over an earlier one and over the initial locals
    ([∪] on maps prefers its left operand). *)
Definition merged_locals (initial : gmap string JsVal)
    (calls : list (GuardFn * Context)) : gmap string JsVal :=
  (⋃ reverse (patch_of <$> calls)) ∪ initial.

Definition with_locals (c : Context) (locals : gmap string JsVal) : Context :=
  {| ctx_request := ctx_request c; ctx_raw := ctx_raw c; ctx_input := ctx_input c;
     ctx_locals := locals |}.

Definition allows (call : GuardFn * Context) : Prop :=
  ∃ locals, call.1 call.2 = inr (Allow locals).

(** The guards of a route as [handle] runs them. *)
Definition effective_guards (h : Handler) : list GuardFn := default [] (h_guards h).

(** ** Matching *)


(** ** The phases of [handle] *)

(** [handle] on a matched route, up to the creation of the context. *)
Definition handle_context (router : Router) (request : Request)
    (initialLocals : gmap string JsVal) (matched : RouteMatch) : M Context :=
  let query := parseQuery (req_url request) in
  '(bodyValue, bodyParseError) <-
    match h_request (rm_handler matched) ≫= schema_body with
    | Some _ =>
        result <- parseBody request;
        ret (parsed result, error result)
    | None => ret (JUndefined, None)
    end;
  input <- validateInputs (router_validator router) (h_request (rm_handler matched))
             {| in_params := param_value <$> rm_params matched;
                in_query := query_value <$> query;
                in_body := bodyValue |}
             bodyParseError;
  ret {| ctx_request := request;
         ctx_raw := {| raw_params := rm_params matched; raw_query := query;
                       raw_body := bodyValue |};
         ctx_input := input;
         ctx_locals := initialLocals |}.

(** [handle] from the guards on. *)
Definition handle_guarded (matched : RouteMatch) (context : Context) : M RouterResponse :=
  guarded <- run_guards (default [] (h_guards (rm_handler matched))) context;
  match guarded with
  | inl denied => ret denied
  | inr context =>
      response <- try_catch
                    (_ <- log (EvHandler (h_handler (rm_handler matched)) context);
                     run (h_handler (rm_handler matched) context))
                    (attach_context context);
      ret {| rr_response := response; rr_context := context |}
  end.

(** The context the framework makes up when it has none. *)
Definition minimal_context (request : Request) : Context :=
  {| ctx_request := request;
     ctx_raw := {| raw_params := ∅; raw_query := ∅; raw_body := JUndefined |};
     ctx_input := InputOk (JObj ∅) (JObj ∅) JUndefined;
     ctx_locals := ∅ |}.

Definition not_found_response : Response :=
  {| status := 404; resp_body := BodyText "Not Found" |}.

(** The context passed to a callback. *)
Definition event_context (ev : Event) : option Context :=
  match ev with
  | EvGuard _ c | EvHandler _ c | EvOnResponse c _ | EvOnError _ c => Some c
  | _ => None
  end.


(** The calls of the response hook in a trace. *)
Definition response_hook_calls (tr : list Event) : list (Context * Response) :=
  omap (λ ev, match ev with EvOnResponse c r => Some (c, r) | _ => None end) tr.

(** The pre-routing hook, when there is one, returns [locals]; without a hook
    the initial locals are empty. *)
Definition request_hook_returns (app : App) (request : Request)
    (locals : option (gmap string JsVal)) : Prop :=
  match app_onRequest app with
  | Some onRequest => onRequest request = inr locals
  | None => locals = Some ∅
  end.

(** The error that [validateInputs] throws for a missing adapter. *)
Definition missing_validator_error : Thrown :=
  thrown_error (new_Error OtherError missing_validator_message).

Definition internal_server_error : Response :=
  {| status := 500;
     resp_body := BodyJson (JObj {[ "error" := JStr "Internal Server Error" ]}) |}.

(** The contexts that [handle] shows to the application or to its caller:
    those passed to a callback, the one returned, and the one attached to
    what is thrown. *)
Definition shown_contexts (m : M RouterResponse) : list Context :=
  omap event_context (trace m) ++
  match outcome m with
  | inl t => option_list (thrown_context t)
  | inr rr => [rr_context rr]
  end.

End Vocabulary.

(** * Further vocabulary *)

Section FurtherVocabulary.
Context `{!Runtime}.

(** ** The query string *)

(** The values that a query string gives to a key, in its order, and the entry
    that [parseQuery] makes of them. *)
Definition values_of (key : string) (pairs : list (string * string)) : list string :=
  (filter (λ p, p.1 = key) pairs).*2.

Definition query_entry (values : list string) : option QueryValue :=
  match values with
  | [] => None
  | [value] => Some (QString value)
  | _ => Some (QArray values)
  end.

(** The entry of a key that the result inherits with the value [first]. *)
Definition inherited_entry (first : JsVal) (values : list string) : option QueryValue :=
  match values with
  | [] => None
  | _ => Some (QInherited first values)
  end.

(** No assignment replaces the prototype of the result: the host has no
    [__proto__] accessor, or the query string has no such key. *)
Definition keeps_prototype (pairs : list (string * string)) : Prop :=
  proto_accessor = false ∨ values_of "__proto__" pairs = [].

(** ** The raw errors of the validation gate *)

(** The raw error that the evaluation of one part leaves in [errors]. *)
Definition part_error (validator : Validator) (schemas : option RequestSchemas)
    (raw : RawInput) (bodyParseError : option ErrorObj) (part : ValidationPart)
    : option JsVal :=
  match part_schema schemas part with
  | None => None
  | Some schema =>
      match part, bodyParseError with
      | PartBody, Some e => Some (JError e)
      | _, _ =>
          match validate validator schema (part_raw raw part) part with
          | ValidateOk _ => None
          | ValidateErr _ err => if is_undefined err then None else Some err
          end
      end
  end.

(** An adapter that tags each issue with the part it was asked to validate. *)
Definition tags_issues (validator : Validator) : Prop :=
  ∀ schema input part issues err,
    validate validator schema input part = ValidateErr issues err →
    Forall (λ issue, issue_part issue = part) issues.

(** ** The phases of a dispatch *)

(** The requests whose body [handle] reads on a matched route: the request
    itself when the route declares a body schema and the request has a body. *)
Definition expected_reads (request : Request) (matched : RouteMatch) : list Request :=
  if h_request (rm_handler matched) ≫= schema_body is Some _
  then (if req_body request is Some _ then [request] else [])
  else [].

Definition is_validate (ev : Event) : Prop :=
  ∃ schema input part, ev = EvValidate schema input part.

(** The assignment [error.context = context] succeeds on the thrown value: it
    is an object, and not one that rejects the assignment. *)
Definition accepts_context (error : Thrown) : bool :=
  is_object (thrown_value error) && negb (thrown_readonly error).

(** ** Routers and groups *)

(** A router with the given compiled routes. *)
Definition router_of (compiled : list CompiledRoute) (validator : option Validator)
    : Router :=
  {| routes := compiled; router_validator := validator |}.

(** The match of one route whose pattern gave [groups]. *)
Definition match_of (h : Handler) (groups : list (string * option string)) : RouteMatch :=
  {| rm_handler := h; rm_params := copy_groups groups |}.

(** What [group] makes of a handler when it has guards to apply. *)
Definition prepend_guards (group_guards : list GuardFn) (handler : Handler) : Handler :=
  {| h_method := h_method handler;
     h_path := h_path handler;
     h_handler := h_handler handler;
     h_guards := Some (group_guards ++ default [] (h_guards handler));
     h_request := h_request handler |}.

(** The same route and the same match, with another handler record. *)
Definition route_with (f : Handler → Handler) (r : CompiledRoute) : CompiledRoute :=
  {| cr_handler := f (cr_handler r); cr_pattern := cr_pattern r |}.

Definition match_with (f : Handler → Handler) (m : RouteMatch) : RouteMatch :=
  {| rm_handler := f (rm_handler m); rm_params := rm_params m |}.

(** A path template that [URLPattern] accepts. *)
Definition compiles (h : Handler) : Prop :=
  ∃ pattern, URLPattern_new (h_path h) = inr pattern.

(** The handlers that [setupHttp] registers. *)
Definition setup_handlers (config : SetupArg) : list Handler :=
  match config with HandlersOnly l => l | WithConfig c => config_handlers c end.

(** ** The fetch handler *)

(** The events of dispatch: reading the body, validating, guards, handler. *)
Definition is_dispatch_event (ev : Event) : Prop :=
  match ev with
  | EvReadBody _ | EvValidate _ _ _ | EvGuard _ _ | EvHandler _ _ => True
  | _ => False
  end.

(** The context that the [catch] clause of [fetch] passes to the error hook. *)
Definition error_context (request : Request) (error : Thrown) : Context :=
  default (minimal_context request) (thrown_context error).

(** [setupHttp] falls back on the default error hook: the array form, or a
    configuration object without [onError]. *)
Definition default_error_hook (config : SetupArg) : bool :=
  match config with
  | HandlersOnly _ => true
  | WithConfig c => if config_onError c is Some _ then false else true
  end.

(** A configuration without hooks: the array form, or a configuration object
    that sets none of [onError], [onRequest] and [onResponse]. *)
Definition no_hooks (config : SetupArg) : Prop :=
  match config with
  | HandlersOnly _ => True
  | WithConfig c =>
      config_onError c = None ∧ config_onRequest c = None ∧ config_onResponse c = None
  end.

End FurtherVocabulary.

(** * A sample host and sample applications

    The properties below hold for every host.  The examples run the pipeline
    on this one, which knows the few texts, templates and URLs they use. *)

Definition sample_JSON_parse (text : string) : Thrown + JsVal :=
  if decide (text = "null") then inr JNull
  else if decide (text = "true") then inr (JBool true)
  else if decide (text = "{}") then inr (JObj ∅)
  else inl (thrown_error (new_Error SyntaxError "Unexpected token")).

Definition sample_exec (template url : string) : option (list (string * option string)) :=
  if decide (template = "/users/:id" ∧ url = "http://localhost/users/123")
  then Some [("id", Some "123")]
  else if decide (url = String.append "http://localhost" template) then Some []
  else None.

Definition sample_searchParams (url : string) : list (string * string) :=
  if decide (url = "http://localhost/search?tag=a&tag=b&q=x")
  then [("tag", "a"); ("tag", "b"); ("q", "x")]
  else if decide (url = "http://localhost/search?toString=1&q=x")
  then [("toString", "1"); ("q", "x")]
  else if decide (url = "http://localhost/search?__proto__=1&length=2&__proto__=3")
  then [("__proto__", "1"); ("length", "2"); ("__proto__", "3")]
  else [].

(** Some of the functions of [Object.prototype] and [Array.prototype]. *)
Definition sample_Object_prototype (key : string) : bool :=
  bool_decide (key ∈ ["constructor"; "hasOwnProperty"; "isPrototypeOf";
                      "propertyIsEnumerable"; "toLocaleString"; "toString";
                      "valueOf"]).

Definition sample_Array_prototype (key : string) : bool :=
  bool_decide (key ∈ ["constructor"; "push"; "pop"; "map"; "join"; "toString"]).

(** The sample host has no [__proto__] accessor, as Deno. *)
Definition sample_runtime : Runtime :=
  {| JSON_parse := sample_JSON_parse;
     URLPattern := string;
     URLPattern_new := inr;
     URLPattern_exec := sample_exec;
     URL_searchParams := sample_searchParams;
     Object_prototype := sample_Object_prototype;
     Array_prototype := sample_Array_prototype;
     proto_accessor := false |}.

Definition ok_response (text : string) : Response :=
  {| status := 200; resp_body := BodyText text |}.

Definition get (url : string) : Request :=
  {| req_method := "GET"; req_url := url; req_body := None |}.

Definition post (url text : string) : Request :=
  {| req_method := "POST"; req_url := url; req_body := Some (inr text) |}.

(** A handler that answers with the role found in the locals. *)
Definition role_handler : HandlerFn := λ c,
  match ctx_locals c !! "role" with
  | Some (JStr role) => inr (ok_response role)
  | _ => inr (ok_response "none")
  end.

Definition guard_user : GuardFn := λ _,
  inr (Allow (Some {[ "user" := JStr "alice"; "role" := JStr "guest" ]})).

Definition guard_admin : GuardFn := λ _,
  inr (Allow (Some {[ "role" := JStr "admin" ]})).

Definition guard_deny : GuardFn := λ _,
  inr (Deny {| status := 401; resp_body := BodyText "Unauthorized" |}).

Definition guard_plain : GuardFn := λ _, inr (Allow None).

(** A schema and an adapter: the schema accepts objects only. *)
Definition object_schema : SchemaLike :=
  {| safeParse := λ v, match v with
                       | JObj _ => SafeParseSuccess v
                       | _ => SafeParseFailure (JStr "not an object")
                       end |}.

Definition reject_schema : SchemaLike :=
  {| safeParse := λ _, SafeParseFailure (JStr "rejected") |}.

Definition sample_validator : Validator :=
  {| validate := λ schema input part,
       match safeParse schema input with
       | SafeParseSuccess data => ValidateOk data
       | SafeParseFailure e =>
           ValidateErr [{| issue_part := part; issue_path := [];
                           issue_message := "Validation failed";
                           issue_code := Some "custom" |}] e
       end |}.

Definition body_schemas : RequestSchemas :=
  {| schema_params := None; schema_query := None; schema_body := Some object_schema |}.

(** GET /health, with three guards that allow; the second has no patch. *)
Definition health_route : Handler :=
  {| h_method := "GET"; h_path := "/health"; h_handler := role_handler;
     h_guards := Some [guard_user; guard_plain; guard_admin]; h_request := None |}.

(** GET /admin: a route guard that denies, inside a group whose guard allows. *)
Definition admin_route : Handler :=
  {| h_method := "GET"; h_path := "/admin"; h_handler := role_handler;
     h_guards := Some [guard_deny; guard_admin]; h_request := None |}.

Definition admin_group : list Handler :=
  group {| handlers := [HGHandler admin_route]; guards := Some [guard_user] |}.

(** POST /upload declares no schema; POST /data declares a body schema. *)
Definition upload_route : Handler :=
  {| h_method := "POST"; h_path := "/upload"; h_handler := role_handler;
     h_guards := None; h_request := None |}.

Definition data_route : Handler :=
  {| h_method := "POST"; h_path := "/data"; h_handler := role_handler;
     h_guards := None; h_request := Some body_schemas |}.

Definition sample_handlers : list Handler :=
  health_route :: admin_group ++ [upload_route; data_route].

Definition compile (h : Handler) : @CompiledRoute sample_runtime :=
  @Build_CompiledRoute sample_runtime h (h_path h).

Definition sample_router (validator : option Validator) : @Router sample_runtime :=
  @Build_Router sample_runtime (compile <$> sample_handlers) validator.

Definition matched_route (h : Handler) : RouteMatch :=
  {| rm_handler := h; rm_params := ∅ |}.

(** GET /users/:id, then GET /health, then any method on /health. *)
Definition users_route : Handler :=
  {| h_method := "GET"; h_path := "/users/:id"; h_handler := role_handler;
     h_guards := None; h_request := None |}.

Definition wild_route : Handler :=
  {| h_method := "*"; h_path := "/health"; h_handler := role_handler;
     h_guards := None; h_request := None |}.

Definition order_router : @Router sample_runtime :=
  @Build_Router sample_runtime (compile <$> [users_route; health_route; wild_route]) None.

(** Schemas that reject params and query and accept an object as body. *)
Definition strict_schemas : RequestSchemas :=
  {| schema_params := Some reject_schema; schema_query := Some reject_schema;
     schema_body := Some object_schema |}.

Definition empty_raw : RawInput :=
  {| in_params := ∅; in_query := ∅; in_body := JUndefined |}.

Definition sample_issue (part : ValidationPart) : ValidationIssue :=
  {| issue_part := part; issue_path := []; issue_message := "Validation failed";
     issue_code := Some "custom" |}.

(** A request whose body cannot be read. *)
Definition unreadable_post (url : string) : Request :=
  {| req_method := "POST"; req_url := url;
     req_body := Some (inl (JError (new_Error TypeError "Body already consumed"))) |}.

(** An application without validator adapter and with the default error
    handler, and one with no route and a response hook. *)
Definition sample_app : @App sample_runtime :=
  @Build_App sample_runtime (sample_router None) defaultOnError None None.

Definition stamp_hook : OnResponseHandler := λ _ _, inr (ok_response "hooked").

(** An application whose pre-routing hook throws, and whose error-boundary
    hook answers 200 when the input state it is given has [ok = true]. *)
Definition failing_hook : OnRequestHandler := λ _,
  inl (thrown_error (new_Error OtherError "hook failed")).

Definition report_hook : OnErrorHandler := λ _ c,
  inr (if input_ok (ctx_input c) then ok_response "ok=true"
       else ok_response "ok=false").

Definition failing_app : @App sample_runtime :=
  @Build_App sample_runtime (sample_router None) (λ e c, run (report_hook e c))
    (Some failing_hook) None.

Definition hooked_app : @App sample_runtime :=
  @Build_App sample_runtime (@Build_Router sample_runtime [] None)
    defaultOnError None (Some stamp_hook).

(** Schemas for the params alone. *)
Definition params_schemas : RequestSchemas :=
  {| schema_params := Some reject_schema; schema_query := None; schema_body := None |}.

(** GET /crash: a guard that throws, between two that allow. *)
Definition guard_throw : GuardFn := λ _,
  inl (thrown_error (new_Error OtherError "guard failed")).

Definition crash_route : Handler :=
  {| h_method := "GET"; h_path := "/crash"; h_handler := role_handler;
     h_guards := Some [guard_user; guard_throw; guard_admin]; h_request := None |}.

Definition crash_router : @Router sample_runtime :=
  @Build_Router sample_runtime [compile crash_route] None.

Definition crash_app : @App sample_runtime :=
  @Build_App sample_runtime crash_router (λ e c, run (report_hook e c))
    None (Some stamp_hook).

(** An application whose response hook throws. *)
Definition failing_response_hook : OnResponseHandler := λ _ _,
  inl (thrown_error (new_Error OtherError "hook failed")).

Definition broken_hook_app : @App sample_runtime :=
  @Build_App sample_runtime (sample_router None) (λ e c, run (report_hook e c))
    None (Some failing_response_hook).

(** An application whose pre-routing hook returns locals. *)
Definition seed_hook : OnRequestHandler := λ _,
  inr (Some {[ "requestId" := JStr "req-123" ]}).

Definition seeded_app : @App sample_runtime :=
  @Build_App sample_runtime (sample_router None) defaultOnError (Some seed_hook) None.

(** A host that has the [__proto__] accessor, as Node. *)
Definition accessor_runtime : Runtime :=
  {| JSON_parse := sample_JSON_parse;
     URLPattern := string;
     URLPattern_new := inr;
     URLPattern_exec := sample_exec;
     URL_searchParams := sample_searchParams;
     Object_prototype := sample_Object_prototype;
     Array_prototype := sample_Array_prototype;
     proto_accessor := true |}.

(** GET /frozen: a guard that throws a frozen error. *)
Definition guard_throw_frozen : GuardFn := λ _,
  inl {| thrown_value := JError (new_Error OtherError "frozen");
         thrown_context := None; thrown_readonly := true |}.

Definition frozen_route : Handler :=
  {| h_method := "GET"; h_path := "/frozen"; h_handler := role_handler;
     h_guards := Some [guard_throw_frozen]; h_request := None |}.

Definition frozen_router : @Router sample_runtime :=
  @Build_Router sample_runtime [compile frozen_route] None.

(** A host whose [URLPattern] rejects the template with an open group. *)
Definition strict_runtime : Runtime :=
  {| JSON_parse := sample_JSON_parse;
     URLPattern := string;
     URLPattern_new := λ template,
       if decide (template = "/(")
       then inl (thrown_error (new_Error TypeError "Invalid pattern"))
       else inr template;
     URLPattern_exec := sample_exec;
     URL_searchParams := sample_searchParams;
     Object_prototype := sample_Object_prototype;
     Array_prototype := sample_Array_prototype;
     proto_accessor := false |}.

Definition bad_route : Handler :=
  {| h_method := "GET"; h_path := "/("; h_handler := role_handler;
     h_guards := None; h_request := None |}.

(** * Properties *)

Section Properties.
Context `{!Runtime}.

(** ** Computations *)

Lemma bind_ret_l {A B} (a : A) (f : A → M B) : bind (ret a) f = f a.
Proof. unfold bind, ret. by destruct (f a). Qed.

Lemma bind_assoc {A B C} (m : M A) (f : A → M B) (g : B → M C) :
  bind (bind m f) g = bind m (λ a, bind (f a) g).
Proof.
  destruct m as [t [e|a]]; simpl; [done|].
  destruct (f a) as [t' [e|b]]; simpl; [done|].
  destruct (g b) as [t'' r]. by rewrite (assoc_L (++)).
Qed.

Lemma bind_ext {A B} (m : M A) (f g : A → M B) :
  (∀ a, f a = g a) → bind m f = bind m g.
Proof. intros Hfg. destruct m as [t [e|a]]; simpl; [done|]. by rewrite Hfg. Qed.

Lemma trace_bind {A B} (m : M A) (f : A → M B) :
  trace (bind m f) =
  trace m ++ match outcome m with inl _ => [] | inr a => trace (f a) end.
Proof.
  destruct m as [t [e|a]]; simpl; [by rewrite app_nil_r|].
  by destruct (f a).
Qed.

Lemma outcome_bind {A B} (m : M A) (f : A → M B) :
  outcome (bind m f) =
  match outcome m with inl e => inl e | inr a => outcome (f a) end.
Proof. destruct m as [t [e|a]]; simpl; [done|]. by destruct (f a). Qed.

Lemma trace_try_catch {A} (m : M A) (h : Thrown → M A) :
  trace (try_catch m h) =
  trace m ++ match outcome m with inl e => trace (h e) | inr _ => [] end.
Proof.
  destruct m as [t [e|a]]; simpl; [|by rewrite app_nil_r].
  by destruct (h e).
Qed.

Lemma outcome_try_catch {A} (m : M A) (h : Thrown → M A) :
  outcome (try_catch m h) =
  match outcome m with inl e => outcome (h e) | inr a => inr a end.
Proof. destruct m as [t [e|a]]; simpl; [|done]. by destruct (h e). Qed.

Lemma M_eta {A} (m : M A) : m = (trace m, outcome m).
Proof. by destruct m. Qed.

Lemma omap_none_all {A B} (f : A → option B) (l : list A) :
  (∀ x, x ∈ l → f x = None) → omap f l = [].
Proof.
  induction l as [|x l IH]; [done|]. intros Hl. simpl.
  rewrite (Hl x) by left. apply IH. intros y Hy. apply Hl. by right.
Qed.

Lemma elem_of_option_list {A} (x : A) (o : option A) :
  x ∈ option_list o → o = Some x.
Proof. destruct o; simpl; set_solver. Qed.

(** ** The validation gate *)

Lemma validateInputs_trace (validator : Validator) (schemas : option RequestSchemas)
    (raw : RawInput) (bodyParseError : option ErrorObj) :
  trace (validateInputs (Some validator) schemas raw bodyParseError)
  = concat (map (part_calls schemas raw bodyParseError) all_parts).
Proof.
  destruct schemas as [[sp sq sb]|]; [|done].
  unfold validateInputs, part_calls, call_validate, all_parts; simpl.
  destruct sp as [sp|], sq as [sq|], sb as [sb|], bodyParseError as [e|]; simpl;
    repeat match goal with
           | |- context [validate ?v ?s ?i ?p] => destruct (validate v s i p); simpl
           end; reflexivity.
Qed.

Lemma validateInputs_missing_validator (schemas : RequestSchemas) (raw : RawInput)
    (bodyParseError : option ErrorObj) :
  validateInputs None (Some schemas) raw bodyParseError
  = throw (thrown_error (new_Error OtherError missing_validator_message)).
Proof. done. Qed.

Lemma validateInputs_no_schemas (validator : option Validator) (raw : RawInput)
    (bodyParseError : option ErrorObj) :
  validateInputs validator None raw bodyParseError
  = ret (InputOk (JObj (in_params raw)) (JObj (in_query raw)) (in_body raw)).
Proof. done. Qed.

(** The validation gate calls the adapter and nothing else. *)
Lemma validateInputs_events validator schemas raw bodyParseError ev :
  ev ∈ trace (validateInputs validator schemas raw bodyParseError) →
  ∃ schema input part, ev = EvValidate schema input part.
Proof.
  destruct validator as [validator|].
  - rewrite validateInputs_trace. unfold all_parts, part_calls. simpl.
    rewrite !elem_of_app. intros Hin.
    repeat match type of Hin with
           | _ ∨ _ => destruct Hin as [Hin|Hin]
           end;
      repeat case_match; set_solver.
  - destruct schemas; [rewrite validateInputs_missing_validator|
                       rewrite validateInputs_no_schemas]; set_solver.
Qed.

Lemma validateInputs_returns (validator : Validator) (schemas : option RequestSchemas)
    (raw : RawInput) (bodyParseError : option ErrorObj) :
  ∃ input, outcome (validateInputs (Some validator) schemas raw bodyParseError) = inr input.
Proof.
  destruct schemas as [[sp sq sb]|]; [|by eexists].
  unfold validateInputs, call_validate; simpl.
  destruct sp as [sp|], sq as [sq|], sb as [sb|], bodyParseError as [e|]; simpl;
    repeat match goal with
           | |- context [validate ?v ?s ?i ?p] => destruct (validate v s i p); simpl
           end; by eexists.
Qed.

Lemma validateInputs_throws validator schemas raw bodyParseError t :
  outcome (validateInputs validator schemas raw bodyParseError) = inl t →
  validator = None ∧ is_Some schemas
  ∧ t = thrown_error (new_Error OtherError missing_validator_message).
Proof.
  destruct validator as [validator|].
  - destruct (validateInputs_returns validator schemas raw bodyParseError) as [? ->].
    done.
  - destruct schemas; [|done]. rewrite validateInputs_missing_validator.
    intros [= <-]. eauto.
Qed.



(** C1. [validateInputs] evaluates the declared parts one by one, as params,
    then query, then body.  When some part fails the input state is the failure
    variant: [failed] lists the failed parts in that order, [issues] is the
    concatenation of their issues in that order, and [received] echoes the three
    raw values.  When no part fails it is the success variant, with the
    validated value of each part that has a schema and the raw value of each
    part that has none. *)
Theorem validateInputs_aggregates (validator : Validator)
    (schemas : option RequestSchemas) (raw : RawInput)
    (bodyParseError : option ErrorObj) :
  let outcomes :=
    map (λ part, (part, evaluate_part validator schemas raw bodyParseError part))
        all_parts in
  let failed := (filter (λ po, part_failed po.2 = true) outcomes).*1 in
  let issues := concat (map (λ po, part_issues po.2) outcomes) in
  trace (validateInputs (Some validator) schemas raw bodyParseError)
    = concat (map (part_calls schemas raw bodyParseError) all_parts)
  ∧ ∃ errors,
      outcome (validateInputs (Some validator) schemas raw bodyParseError)
      = inr (if decide (failed = [])
             then InputOk
                    (part_value raw PartParams
                       (evaluate_part validator schemas raw bodyParseError PartParams))
                    (part_value raw PartQuery
                       (evaluate_part validator schemas raw bodyParseError PartQuery))
                    (part_value raw PartBody
                       (evaluate_part validator schemas raw bodyParseError PartBody))
             else InputErr failed issues (received_of raw) errors).
Proof.
  destruct schemas as [[sp sq sb]|]; [|split; [done|by exists None]].
  unfold validateInputs, evaluate_part, part_calls, call_validate, all_parts; simpl.
  destruct sp as [sp|], sq as [sq|], sb as [sb|], bodyParseError as [e|]; simpl;
    repeat match goal with
           | |- context [validate ?v ?s ?i ?p] => destruct (validate v s i p); simpl
           end;
    (split; [reflexivity|];
     first [ by exists None
           | eexists; rewrite <- ?(app_assoc (A:=ValidationIssue)),
               ?(app_nil_r (A:=ValidationIssue)); reflexivity ]).
Qed.

(** ** Reading the body *)

Lemma parseBody_spec (request : Request) :
  parseBody request =
  match req_body request with
  | None => ([], inr {| parsed := JUndefined; error := None |})
  | Some (inl v) => ([EvReadBody request], inr (parseBody_catch v))
  | Some (inr text) =>
      ([EvReadBody request],
       inr (if decide (text = EmptyString)
            then {| parsed := JUndefined; error := None |}
            else match JSON_parse text with
                 | inl t => parseBody_catch (thrown_value t)
                 | inr value => {| parsed := value; error := None |}
                 end))
  end.
Proof.
  unfold parseBody. destruct (req_body request) as [[v|text]|]; [done| |done].
  simpl. destruct (decide (text = EmptyString)); [done|].
  by destruct (JSON_parse text).
Qed.

Lemma parseBody_total (request : Request) :
  ∃ result, outcome (parseBody request) = inr result.
Proof.
  rewrite parseBody_spec. destruct (req_body request) as [[v|text]|]; by eexists.
Qed.

Lemma parseBody_trace (request : Request) :
  trace (parseBody request)
  = if req_body request is Some _ then [EvReadBody request] else [].
Proof. rewrite parseBody_spec. by destruct (req_body request) as [[v|text]|]. Qed.


(** ** Matching *)





(** ** Grouping *)

Lemma group_loop_cons_handler h rest :
  group_loop (HGHandler h :: rest) = h :: group_loop rest.
Proof. done. Qed.

Lemma group_loop_cons_array items rest :
  group_loop (HGArray items :: rest) = group_loop items ++ group_loop rest.
Proof. done. Qed.

Lemma group_loop_nil : group_loop [] = [].
Proof. done. Qed.

Lemma group_loop_handlers (l : list Handler) :
  group_loop (HGHandler <$> l) = l.
Proof.
  induction l as [|h l IH]; [done|].
  rewrite fmap_cons, group_loop_cons_handler. by f_equal.
Qed.

Lemma group_effective_guards (options : GroupOptions) :
  effective_guards <$> group options
  = (λ h, default [] (guards options) ++ effective_guards h)
      <$> group_loop (handlers options).
Proof.
  unfold group. destruct (guards options) as [[|g gs]|]; simpl; try done.
  rewrite <- list_fmap_compose. done.
Qed.

(** ** Locals *)

Lemma with_locals_id c : with_locals c (ctx_locals c) = c.
Proof. by destruct c. Qed.

Lemma merged_locals_nil initial : merged_locals initial [] = initial.
Proof. unfold merged_locals. simpl. by rewrite (left_id_L ∅ (∪)). Qed.

Lemma locals_union_app (l1 l2 : list (gmap string JsVal)) :
  ⋃ (l1 ++ l2) = (⋃ l1) ∪ (⋃ l2).
Proof.
  induction l1 as [|m l1 IH]; simpl.
  - by rewrite (left_id_L ∅ (∪)).
  - by rewrite IH, (assoc_L (∪)).
Qed.

Lemma merged_locals_cons initial call calls :
  merged_locals initial (call :: calls) = merged_locals (patch_of call ∪ initial) calls.
Proof.
  unfold merged_locals. rewrite fmap_cons, reverse_cons, locals_union_app.
  simpl. by rewrite (right_id_L ∅ (∪)), (assoc_L (∪)).
Qed.

Lemma merged_locals_snoc initial calls call :
  merged_locals initial (calls ++ [call]) = patch_of call ∪ merged_locals initial calls.
Proof.
  unfold merged_locals. rewrite fmap_app, reverse_app. simpl.
  by rewrite (assoc_L (∪)).
Qed.

Lemma merged_locals_lookup_none initial calls (K : string) :
  (∀ call, call ∈ calls → patch_of call !! K = None) →
  merged_locals initial calls !! K = initial !! K.
Proof.
  induction calls as [|call calls IH] using rev_ind; intros Hnone.
  - by rewrite merged_locals_nil.
  - rewrite merged_locals_snoc, lookup_union_r.
    + apply IH. intros call' Hin. apply Hnone. set_solver.
    + apply Hnone. set_solver.
Qed.

Lemma merged_locals_lookup_last initial calls1 call calls2 (K : string) v :
  patch_of call !! K = Some v →
  (∀ call', call' ∈ calls2 → patch_of call' !! K = None) →
  merged_locals initial (calls1 ++ call :: calls2) !! K = Some v.
Proof.
  intros Hcall. induction calls2 as [|call2 calls2 IH] using rev_ind; intros Hnone.
  - rewrite merged_locals_snoc. by apply lookup_union_Some_l.
  - rewrite app_comm_cons, (assoc_L (++)), merged_locals_snoc, lookup_union_r.
    + apply IH. intros call' Hin. apply Hnone. set_solver.
    + apply Hnone. set_solver.
Qed.

Lemma merged_locals_mono initial calls1 calls2 (K : string) :
  is_Some (merged_locals initial calls1 !! K) →
  is_Some (merged_locals initial (calls1 ++ calls2) !! K).
Proof.
  intros Hsome. induction calls2 as [|call calls2 IH] using rev_ind.
  - by rewrite (right_id_L [] (++)).
  - rewrite (assoc_L (++)), merged_locals_snoc, lookup_union_is_Some. by right.
Qed.

(** ** The guard loop *)

Lemma run_guard_call (guard : GuardFn) (context : Context) :
  try_catch (_ <- log (EvGuard guard context); run (guard context))
            (attach_context context)
  = ([EvGuard guard context],
     match guard context with
     | inl t => inl (rethrown context t)
     | inr r => inr r
     end).
Proof.
  unfold try_catch, bind, log, run, attach_context, rethrown, throw. simpl.
  destruct (guard context) as [t|r]; [|done].
  by destruct (is_object (thrown_value t)).
Qed.

Lemma run_handler_call (handler : HandlerFn) (context : Context) :
  try_catch (_ <- log (EvHandler handler context); run (handler context))
            (attach_context context)
  = ([EvHandler handler context],
     match handler context with
     | inl t => inl (rethrown context t)
     | inr r => inr r
     end).
Proof.
  unfold try_catch, bind, log, run, attach_context, rethrown, throw. simpl.
  destruct (handler context) as [t|r]; [|done].
  by destruct (is_object (thrown_value t)).
Qed.

Lemma run_guards_spec (guards : list GuardFn) (c : Context) :
  ∃ calls : list (GuardFn * Context),
    trace (run_guards guards c) = (λ call, EvGuard call.1 call.2) <$> calls
    ∧ calls.*1 `prefix_of` guards
    ∧ (∀ i call, calls !! i = Some call →
         call.2 = with_locals c (merged_locals (ctx_locals c) (take i calls)))
    ∧ (∀ i call, calls !! i = Some call → S i < length calls → allows call)
    ∧ match outcome (run_guards guards c) with
      | inr (inr c') =>
          calls.*1 = guards ∧ Forall allows calls
          ∧ c' = with_locals c (merged_locals (ctx_locals c) calls)
      | inr (inl rr) =>
          ∃ call, list.last calls = Some call
            ∧ call.1 call.2 = inr (Deny (rr_response rr)) ∧ rr_context rr = call.2
      | inl t =>
          ∃ call t0, list.last calls = Some call
            ∧ call.1 call.2 = inl t0 ∧ t = rethrown call.2 t0
      end.
Proof.
  revert c. induction guards as [|g rest IH]; intros c.
  { exists []. simpl. repeat split; try done.
    by rewrite merged_locals_nil, with_locals_id. }
  cbn [run_guards]. rewrite run_guard_call.
  destruct (g c) as [t|[locals|deny]] eqn:Hg.
  - (* the guard throws *)
    exists [(g, c)]. simpl. split_and!.
    + done.
    + by apply prefix_cons, prefix_nil.
    + intros [|i] call; [|done]. intros [= <-]. simpl.
      by rewrite merged_locals_nil, with_locals_id.
    + intros [|i] call ?; simpl; lia.
    + by exists (g, c), t.
  - (* the guard allows *)
    set (c' := match locals with
               | Some l => with_locals c (l ∪ ctx_locals c)
               | None => c
               end).
    assert (Hpatch : c' = with_locals c (patch_of (g, c) ∪ ctx_locals c)).
    { unfold patch_of, c'. simpl. rewrite Hg. destruct locals; [done|].
      by rewrite (left_id_L ∅ (∪)), with_locals_id. }
    destruct (IH c') as (calls & Htr & Hpre & Hctx & Hallow & Hout).
    assert (Hrun : bind ([EvGuard g c], inr (Allow locals))
              (λ guardResult, match guardResult with
                 | Deny deny => ret (inl {| rr_response := deny; rr_context := c |})
                 | Allow (Some locals) =>
                     run_guards rest
                       {| ctx_request := ctx_request c; ctx_raw := ctx_raw c;
                          ctx_input := ctx_input c;
                          ctx_locals := locals ∪ ctx_locals c |}
                 | Allow None => run_guards rest c
                 end)
            = (EvGuard g c :: trace (run_guards rest c'), outcome (run_guards rest c'))).
    { unfold bind, c', with_locals. destruct locals; by destruct (run_guards rest _). }
    rewrite Hrun. clear Hrun.
    assert (Hm : ∀ l, with_locals c' (merged_locals (ctx_locals c') l)
                      = with_locals c (merged_locals (ctx_locals c) ((g, c) :: l))).
    { intros l. rewrite merged_locals_cons, Hpatch. done. }
    exists ((g, c) :: calls). simpl. split_and!.
    + by rewrite Htr.
    + by apply prefix_cons.
    + intros [|i] call; simpl.
      * intros [= <-]. by rewrite merged_locals_nil, with_locals_id.
      * intros Hi. rewrite (Hctx _ _ Hi). apply Hm.
    + intros [|i] call; simpl.
      * intros [= <-] _. by exists locals.
      * intros Hi Hlt. apply (Hallow i); [done|lia].
    + destruct (outcome (run_guards rest c')) as [t|[rr|cfin]].
      * destruct Hout as (call & t0 & Hlast & ? & ?). exists call, t0.
        split_and!; try done. by rewrite last_cons, Hlast.
      * destruct Hout as (call & Hlast & ? & ?). exists call.
        split_and!; try done. by rewrite last_cons, Hlast.
      * destruct Hout as (Heq & Hall & ->). split_and!.
        -- by f_equal.
        -- constructor; [by exists locals|done].
        -- apply Hm.
  - (* the guard denies *)
    exists [(g, c)]. simpl. split_and!.
    + done.
    + by apply prefix_cons, prefix_nil.
    + intros [|i] call; [|done]. intros [= <-]. simpl.
      by rewrite merged_locals_nil, with_locals_id.
    + intros [|i] call ?; simpl; lia.
    + by exists (g, c).
Qed.

Lemma guard_calls_guards (calls : list (GuardFn * Context)) :
  guard_calls ((λ call, EvGuard call.1 call.2) <$> calls) = calls.
Proof. induction calls as [|[g c] calls IH]; [done|]. simpl. by f_equal. Qed.

Lemma handler_calls_guards (calls : list (GuardFn * Context)) :
  handler_calls ((λ call, EvGuard call.1 call.2) <$> calls) = [].
Proof. by induction calls as [|[g c] calls IH]. Qed.

Lemma body_reads_guards (calls : list (GuardFn * Context)) :
  body_reads ((λ call, EvGuard call.1 call.2) <$> calls) = [].
Proof. by induction calls as [|[g c] calls IH]. Qed.

Lemma event_context_guards (calls : list (GuardFn * Context)) :
  omap event_context ((λ call, EvGuard call.1 call.2) <$> calls) = calls.*2.
Proof. induction calls as [|[g c] calls IH]; [done|]. simpl. by f_equal. Qed.

(** ** The phases of [handle] *)

Lemma handle_guarded_eq (matched : RouteMatch) (context : Context) :
  handle_guarded matched context =
  (guarded <-
     match h_guards (rm_handler matched) with
     | Some guards =>
         if decide (0 < length guards) then run_guards guards context
         else ret (inr context)
     | None => ret (inr context)
     end;
   match guarded with
   | inl denied => ret denied
   | inr context =>
       response <- try_catch
                     (_ <- log (EvHandler (h_handler (rm_handler matched)) context);
                      run (h_handler (rm_handler matched) context))
                     (attach_context context);
       ret {| rr_response := response; rr_context := context |}
   end).
Proof.
  unfold handle_guarded. destruct (h_guards (rm_handler matched)) as [[|g gs]|]; try done.
Qed.

Lemma handle_phases (router : Router) (request : Request)
    (initialLocals : gmap string JsVal) :
  handle router request initialLocals =
  match match_ router (req_method request) (req_url request) with
  | None => ret {| rr_response := not_found_response;
                   rr_context := minimal_context request |}
  | Some matched =>
      bind (handle_context router request initialLocals matched) (handle_guarded matched)
  end.
Proof.
  unfold handle. destruct (match_ _ _ _) as [matched|]; [|done].
  unfold handle_context. rewrite bind_assoc. apply bind_ext. intros [bodyValue bodyParseError].
  rewrite bind_assoc. apply bind_ext. intros input.
  by rewrite bind_ret_l, handle_guarded_eq.
Qed.

(** The context phase, with the body already read. *)
Lemma handle_context_spec (router : Router) (request : Request)
    (initialLocals : gmap string JsVal) (matched : RouteMatch) :
  ∃ result, outcome (parseBody request) = inr result ∧
    let declared := h_request (rm_handler matched) ≫= schema_body in
    let bodyValue := if declared is Some _ then parsed result else JUndefined in
    let bodyParseError := if declared is Some _ then error result else None in
    let v := validateInputs (router_validator router) (h_request (rm_handler matched))
               {| in_params := param_value <$> rm_params matched;
                  in_query := query_value <$> parseQuery (req_url request);
                  in_body := bodyValue |}
               bodyParseError in
    handle_context router request initialLocals matched
    = ((if declared is Some _ then trace (parseBody request) else []) ++ trace v,
       match outcome v with
       | inl t => inl t
       | inr input =>
           inr {| ctx_request := request;
                  ctx_raw := {| raw_params := rm_params matched;
                                raw_query := parseQuery (req_url request);
                                raw_body := bodyValue |};
                  ctx_input := input;
                  ctx_locals := initialLocals |}
       end).
Proof.
  destruct (parseBody_total request) as [result Hresult]. exists result.
  split; [done|]. unfold handle_context.
  destruct (h_request (rm_handler matched) ≫= schema_body) as [schema|]; simpl.
  - destruct (parseBody request) as [tr o]. simpl in Hresult. subst o. simpl.
    destruct (validateInputs _ _ _ _) as [tv [t|input]]; simpl;
      by rewrite !(right_id_L [] (++)).
  - destruct (validateInputs _ _ _ _) as [tv [t|input]]; simpl;
      by rewrite ?(right_id_L [] (++)).
Qed.

(** Before the guards, [handle] reads the body and calls the adapter, and
    nothing else. *)
Lemma handle_context_events router request initialLocals matched ev :
  ev ∈ trace (handle_context router request initialLocals matched) →
  (ev = EvReadBody request ∧ is_Some (h_request (rm_handler matched) ≫= schema_body))
  ∨ ∃ schema input part, ev = EvValidate schema input part.
Proof.
  destruct (handle_context_spec router request initialLocals matched)
    as (result & _ & ->). simpl. rewrite elem_of_app. intros [Hin|Hin].
  - left. destruct (h_request (rm_handler matched) ≫= schema_body); [|set_solver].
    rewrite parseBody_trace in Hin. destruct (req_body request); set_solver.
  - right. by eapply validateInputs_events.
Qed.

Lemma handle_context_quiet router request initialLocals matched :
  let tr := trace (handle_context router request initialLocals matched) in
  guard_calls tr = [] ∧ handler_calls tr = [] ∧ omap event_context tr = [].
Proof.
  split_and!; apply omap_none_all; intros ev Hev;
    apply handle_context_events in Hev as [[-> _]|(?&?&?&->)]; done.
Qed.

Lemma handle_context_returns router request initialLocals matched :
  is_Some (router_validator router) ∨ h_request (rm_handler matched) = None →
  ∃ c, outcome (handle_context router request initialLocals matched) = inr c.
Proof.
  intros Hok.
  destruct (handle_context_spec router request initialLocals matched)
    as (result & _ & ->). simpl.
  destruct Hok as [[validator ->]| ->].
  - destruct (validateInputs_returns validator (h_request (rm_handler matched))
      {| in_params := param_value <$> rm_params matched;
         in_query := query_value <$> parseQuery (req_url request);
         in_body := if h_request (rm_handler matched) ≫= schema_body is Some _
                    then parsed result else JUndefined |}
      (if h_request (rm_handler matched) ≫= schema_body is Some _
       then error result else None)) as [input ->].
    by eexists.
  - simpl. by eexists.
Qed.

Lemma handle_context_fields router request initialLocals matched c0 :
  outcome (handle_context router request initialLocals matched) = inr c0 →
  ∃ result, outcome (parseBody request) = inr result
    ∧ ctx_request c0 = request
    ∧ ctx_locals c0 = initialLocals
    ∧ raw_params (ctx_raw c0) = rm_params matched
    ∧ raw_query (ctx_raw c0) = parseQuery (req_url request)
    ∧ raw_body (ctx_raw c0)
      = (if h_request (rm_handler matched) ≫= schema_body is Some _
         then parsed result else JUndefined)
    ∧ outcome (validateInputs (router_validator router) (h_request (rm_handler matched))
                 {| in_params := param_value <$> rm_params matched;
                    in_query := query_value <$> parseQuery (req_url request);
                    in_body := raw_body (ctx_raw c0) |}
                 (if h_request (rm_handler matched) ≫= schema_body is Some _
                  then error result else None))
      = inr (ctx_input c0).
Proof.
  destruct (handle_context_spec router request initialLocals matched)
    as (result & Hresult & ->). simpl. intros Hc0. exists result.
  destruct (outcome (validateInputs _ _ _ _)) as [t|input] eqn:Hv; [done|].
  injection Hc0 as <-. simpl. by rewrite Hv.
Qed.

Lemma handle_context_throws router request initialLocals matched t :
  outcome (handle_context router request initialLocals matched) = inl t →
  router_validator router = None ∧ is_Some (h_request (rm_handler matched))
  ∧ t = thrown_error (new_Error OtherError missing_validator_message).
Proof.
  destruct (handle_context_spec router request initialLocals matched)
    as (result & _ & ->). simpl.
  destruct (outcome (validateInputs _ _ _ _)) as [t'|input] eqn:Hv; [|done].
  intros [= <-]. by apply validateInputs_throws in Hv.
Qed.

Lemma handle_guarded_run (matched : RouteMatch) (c : Context) :
  let h := h_handler (rm_handler matched) in
  let g := run_guards (default [] (h_guards (rm_handler matched))) c in
  handle_guarded matched c =
  (trace g ++ match outcome g with inr (inr c') => [EvHandler h c'] | _ => [] end,
   match outcome g with
   | inl t => inl t
   | inr (inl rr) => inr rr
   | inr (inr c') =>
       match h c' with
       | inl t => inl (rethrown c' t)
       | inr response => inr {| rr_response := response; rr_context := c' |}
       end
   end).
Proof.
  simpl. unfold handle_guarded.
  destruct (run_guards _ c) as [tr [t|[rr|c']]].
  - simpl. by rewrite (right_id_L [] (++)).
  - done.
  - unfold bind at 1. rewrite run_handler_call. simpl.
    by destruct (h_handler (rm_handler matched) c').
Qed.

Lemma handle_matched_run router request initialLocals matched :
  match_ router (req_method request) (req_url request) = Some matched →
  let hc := handle_context router request initialLocals matched in
  handle router request initialLocals
  = (trace hc ++ match outcome hc with
                 | inl _ => []
                 | inr c => trace (handle_guarded matched c)
                 end,
     match outcome hc with
     | inl t => inl t
     | inr c => outcome (handle_guarded matched c)
     end).
Proof.
  intros Hmatch. simpl. rewrite handle_phases, Hmatch.
  by rewrite (M_eta (bind _ _)), trace_bind, outcome_bind.
Qed.

(** The calls and the outcome of [handle] on a matched route, in terms of
    its two phases. *)
Lemma handle_calls router request initialLocals matched :
  match_ router (req_method request) (req_url request) = Some matched →
  let m := handle router request initialLocals in
  let hc := handle_context router request initialLocals matched in
  let h := h_handler (rm_handler matched) in
  match outcome hc with
  | inl t =>
      trace m = trace hc ∧ guard_calls (trace m) = [] ∧ handler_calls (trace m) = []
      ∧ outcome m = inl t
  | inr c0 =>
      let g := run_guards (default [] (h_guards (rm_handler matched))) c0 in
      trace m = trace hc ++ trace g
                  ++ match outcome g with inr (inr c') => [EvHandler h c'] | _ => [] end
      ∧ guard_calls (trace m) = guard_calls (trace g)
      ∧ handler_calls (trace m)
        = match outcome g with inr (inr c') => [(h, c')] | _ => [] end
      ∧ outcome m
        = match outcome g with
          | inl t => inl t
          | inr (inl rr) => inr rr
          | inr (inr c') =>
              match h c' with
              | inl t => inl (rethrown c' t)
              | inr response => inr {| rr_response := response; rr_context := c' |}
              end
          end
  end.
Proof.
  intros Hmatch. simpl. rewrite (handle_matched_run _ _ _ _ Hmatch).
  destruct (handle_context_quiet router request initialLocals matched)
    as (Hg & Hh & _).
  destruct (outcome (handle_context _ _ _ _)) as [t|c0]; simpl.
  - rewrite (right_id_L [] (++)). by rewrite Hg, Hh.
  - rewrite handle_guarded_run. simpl.
    destruct (run_guards_spec (default [] (h_guards (rm_handler matched))) c0)
      as (calls & Htr & _).
    unfold guard_calls, handler_calls in *. rewrite !omap_app, Hg, Hh, Htr.
    fold (guard_calls ((λ call, EvGuard call.1 call.2) <$> calls)).
    fold (handler_calls ((λ call, EvGuard call.1 call.2) <$> calls)).
    rewrite guard_calls_guards, handler_calls_guards. simpl.
    split_and!; try done.
    + by destruct (outcome (run_guards _ c0)) as [?|[?|?]]; simpl;
        rewrite ?(right_id_L [] (++)).
    + by destruct (outcome (run_guards _ c0)) as [?|[?|?]].
Qed.

Lemma rethrown_context c t c' :
  thrown_context (rethrown c t) = Some c' → c' = c.
Proof. unfold rethrown. destruct (_ && _); simpl; congruence. Qed.

(** Every context that [handle] shows on a matched route is the context made
    after validation, up to its locals. *)
Lemma handle_shown_contexts router request initialLocals matched c :
  match_ router (req_method request) (req_url request) = Some matched →
  c ∈ shown_contexts (handle router request initialLocals) →
  ∃ c0, outcome (handle_context router request initialLocals matched) = inr c0
    ∧ ctx_request c = ctx_request c0 ∧ ctx_raw c = ctx_raw c0
    ∧ ctx_input c = ctx_input c0.
Proof.
  intros Hmatch. unfold shown_contexts.
  pose proof (handle_calls router request initialLocals matched Hmatch) as Hcalls.
  simpl in Hcalls.
  destruct (handle_context_quiet router request initialLocals matched)
    as (_ & _ & Hquiet).
  destruct (outcome (handle_context router request initialLocals matched))
    as [t|c0] eqn:Hhc.
  { destruct Hcalls as (-> & _ & _ & ->). rewrite Hquiet.
    apply handle_context_throws in Hhc as (_ & _ & ->). set_solver. }
  destruct Hcalls as (-> & _ & _ & ->).
  destruct (run_guards_spec (default [] (h_guards (rm_handler matched))) c0)
    as (calls & Htr & _ & Hctx & _ & Hend).
  rewrite !omap_app, Hquiet, Htr, event_context_guards.
  assert (Hcall : ∀ call, call ∈ calls →
            ctx_request call.2 = ctx_request c0 ∧ ctx_raw call.2 = ctx_raw c0
            ∧ ctx_input call.2 = ctx_input c0).
  { intros call Hin. apply list_elem_of_lookup in Hin as [i Hi].
    by rewrite (Hctx i call Hi). }
  assert (Hlast : ∀ call, list.last calls = Some call → call ∈ calls).
  { intros call Hl. rewrite last_lookup in Hl. by eapply list_elem_of_lookup_2. }
  intros Hin. exists c0. split; [done|].
  rewrite !elem_of_app in Hin. destruct Hin as [[Hin|[Hin|Hin]]|Hin].
  - set_solver.
  - apply list_elem_of_fmap in Hin as (call & -> & Hin). by apply Hcall.
  - destruct (outcome (run_guards _ c0)) as [t|[rr|c']]; set_solver.
  - destruct (outcome (run_guards _ c0)) as [t|[rr|c']].
    + destruct Hend as (call & t0 & Hl & _ & ->).
      apply elem_of_option_list, rethrown_context in Hin as ->.
      by apply Hcall, Hlast.
    + destruct Hend as (call & Hl & _ & Hrr).
      apply list_elem_of_singleton in Hin as ->. rewrite Hrr. by apply Hcall, Hlast.
    + destruct Hend as (_ & _ & Hc'). subst c'.
      destruct (h_handler (rm_handler matched) _) as [t|response].
      * by apply elem_of_option_list, rethrown_context in Hin as ->.
      * by apply list_elem_of_singleton in Hin as ->.
Qed.

Lemma handle_reads_body router request initialLocals matched :
  match_ router (req_method request) (req_url request) = Some matched →
  body_reads (trace (handle router request initialLocals))
  = body_reads (trace (handle_context router request initialLocals matched)).
Proof.
  intros Hmatch.
  pose proof (handle_calls router request initialLocals matched Hmatch) as Hcalls.
  simpl in Hcalls.
  destruct (outcome (handle_context router request initialLocals matched)) as [t|c0].
  { by destruct Hcalls as (-> & _). }
  destruct Hcalls as (-> & _).
  destruct (run_guards_spec (default [] (h_guards (rm_handler matched))) c0)
    as (calls & -> & _).
  unfold body_reads. rewrite !omap_app.
  fold (body_reads ((λ call, EvGuard call.1 call.2) <$> calls)).
  rewrite body_reads_guards.
  destruct (outcome (run_guards _ c0)) as [?|[?|?]]; simpl;
    by rewrite ?(right_id_L [] (++)).
Qed.

Lemma handle_no_response_hook router request initialLocals :
  response_hook_calls (trace (handle router request initialLocals)) = [].
Proof.
  destruct (match_ router (req_method request) (req_url request)) as [matched|]
    eqn:Hmatch; [|by rewrite handle_phases, Hmatch].
  pose proof (handle_calls router request initialLocals matched Hmatch) as Hcalls.
  simpl in Hcalls.
  assert (Hhc : response_hook_calls
                  (trace (handle_context router request initialLocals matched)) = []).
  { apply omap_none_all. intros ev Hev.
    apply handle_context_events in Hev as [[-> _]|(?&?&?&->)]; done. }
  destruct (outcome (handle_context router request initialLocals matched)) as [t|c0].
  { by destruct Hcalls as (-> & _). }
  destruct Hcalls as (-> & _).
  destruct (run_guards_spec (default [] (h_guards (rm_handler matched))) c0)
    as (calls & -> & _).
  unfold response_hook_calls in *. rewrite !omap_app, Hhc. simpl.
  rewrite (omap_none_all _ (_ <$> calls)).
  - by destruct (outcome (run_guards _ c0)) as [?|[?|?]].
  - intros ev Hev. by apply list_elem_of_fmap in Hev as (call & -> & _).
Qed.


(** Once validation has returned, [handle] calls a guard or the handler. *)
Lemma handle_proceeds router request initialLocals matched :
  match_ router (req_method request) (req_url request) = Some matched →
  is_Some (router_validator router) ∨ h_request (rm_handler matched) = None →
  0 < length (guard_calls (trace (handle router request initialLocals)))
      + length (handler_calls (trace (handle router request initialLocals))).
Proof.
  intros Hmatch Hok.
  pose proof (handle_calls router request initialLocals matched Hmatch) as Hcalls.
  simpl in Hcalls.
  destruct (handle_context_returns router request initialLocals matched Hok)
    as [c0 Hc0].
  rewrite Hc0 in Hcalls. destruct Hcalls as (_ & -> & -> & _).
  destruct (run_guards_spec (default [] (h_guards (rm_handler matched))) c0)
    as (calls & -> & _ & _ & _ & Hend).
  rewrite guard_calls_guards.
  destruct (outcome (run_guards _ c0)) as [t|[rr|c']]; simpl; [| |lia].
  - destruct Hend as (call & t0 & Hl & _). destruct calls; [done|simpl; lia].
  - destruct Hend as (call & Hl & _). destruct calls; [done|simpl; lia].
Qed.

(** ** The dispatcher *)

Lemma handle_end_state router request initialLocals matched c0 :
  match_ router (req_method request) (req_url request) = Some matched →
  outcome (handle_context router request initialLocals matched) = inr c0 →
  let m := handle router request initialLocals in
  let calls := guard_calls (trace m) in
  let h := h_handler (rm_handler matched) in
  (∀ i call, calls !! i = Some call →
     call.2 = with_locals c0 (merged_locals initialLocals (take i calls)))
  ∧ (∀ i call, calls !! i = Some call → S i < length calls → allows call)
  ∧ ((∃ call t, list.last calls = Some call ∧ call.1 call.2 = inl t
        ∧ handler_calls (trace m) = []
        ∧ outcome m = inl (rethrown call.2 t))
     ∨ (∃ call deny, list.last calls = Some call ∧ call.1 call.2 = inr (Deny deny)
          ∧ handler_calls (trace m) = []
          ∧ outcome m = inr {| rr_response := deny; rr_context := call.2 |})
     ∨ (calls.*1 = effective_guards (rm_handler matched) ∧ Forall allows calls
        ∧ handler_calls (trace m)
          = [(h, with_locals c0 (merged_locals initialLocals calls))]
        ∧ outcome m
          = match h (with_locals c0 (merged_locals initialLocals calls)) with
            | inl t =>
                inl (rethrown (with_locals c0 (merged_locals initialLocals calls)) t)
            | inr response =>
                inr {| rr_response := response;
                       rr_context :=
                         with_locals c0 (merged_locals initialLocals calls) |}
            end)).
Proof.
  intros Hmatch Hhc m calls h.
  pose proof (handle_calls router request initialLocals matched Hmatch) as Hcalls.
  simpl in Hcalls. fold m in Hcalls. rewrite Hhc in Hcalls.
  destruct Hcalls as (_ & Hg & Hh & Hout). fold calls in Hg.
  destruct (handle_context_fields _ _ _ _ _ Hhc) as (_ & _ & _ & Hinit & _).
  destruct (run_guards_spec (default [] (h_guards (rm_handler matched))) c0)
    as (calls' & Htr & _ & Hctx & Hallow & Hend).
  rewrite Htr, guard_calls_guards in Hg. clearbody calls m. subst calls'.
  rewrite Hinit in Hctx, Hend. split_and!; [done|done|].
  rewrite Hh, Hout.
  destruct (outcome (run_guards _ c0)) as [t|[rr|c']].
  - left. destruct Hend as (call & t0 & Hl & Hthrow & ->). by exists call, t0.
  - right; left. destruct Hend as (call & Hl & Hdeny & Hctx').
    exists call, (rr_response rr). split_and!; try done.
    destruct rr; simpl in *. by subst.
  - right; right. destruct Hend as (Heq & Hall & ->). done.
Qed.

Lemma handle_guard_reached router request initialLocals matched c0 (i : nat) g :
  match_ router (req_method request) (req_url request) = Some matched →
  outcome (handle_context router request initialLocals matched) = inr c0 →
  let calls := guard_calls (trace (handle router request initialLocals)) in
  effective_guards (rm_handler matched) !! i = Some g →
  (∀ j call, j < i → calls !! j = Some call → allows call) →
  ∃ c, calls !! i = Some (g, c).
Proof.
  intros Hmatch Hhc calls Hg Hbefore.
  pose proof (handle_calls router request initialLocals matched Hmatch) as Hcalls.
  simpl in Hcalls. rewrite Hhc in Hcalls. destruct Hcalls as (_ & Hgc & _).
  fold calls in Hgc. unfold effective_guards in Hg.
  destruct (run_guards_spec (default [] (h_guards (rm_handler matched))) c0)
    as (calls' & Htr & Hpre & _ & _ & Hend).
  rewrite Htr, guard_calls_guards in Hgc. clearbody calls. subst calls'.
  unfold GuardFn in *.
  assert (Hlt : i < length calls).
  { destruct (decide (i < length calls)) as [|Hge]; [done|exfalso].
    assert (Hall : ∀ call, list.last calls = Some call → allows call).
    { intros call Hl. rewrite last_lookup in Hl.
      apply (Hbefore (pred (length calls))); [|done].
      apply lookup_lt_Some in Hl. lia. }
    destruct (outcome (run_guards _ c0)) as [t|[rr|c']].
    - destruct Hend as (call & t0 & Hl & Hthrow & _).
      destruct (Hall _ Hl) as [locals Hal]. unfold GuardFn in *. congruence.
    - destruct Hend as (call & Hl & Hdeny & _).
      destruct (Hall _ Hl) as [locals Hal]. unfold GuardFn in *. congruence.
    - destruct Hend as (Heq & _). apply lookup_lt_Some in Hg.
      rewrite <- Heq, length_fmap in Hg. lia. }
  destruct (lookup_lt_is_Some_2 calls i Hlt) as [[g' c] Hi].
  exists c. assert (g' = g) as ->; [|done].
  assert (Hi' : calls.*1 !! i = Some g') by (by rewrite list_lookup_fmap, Hi).
  pose proof (prefix_lookup_Some _ _ _ _ Hi' Hpre). congruence.
Qed.

Lemma guard_locals_accumulate (router : Router) (request : Request)
    (initialLocals : gmap string JsVal) (matched : RouteMatch) :
  match_ router (req_method request) (req_url request) = Some matched →
  let m := handle router request initialLocals in
  let calls := guard_calls (trace m) in
  (∀ i call, calls !! i = Some call →
     ctx_locals call.2 = merged_locals initialLocals (take i calls))
  ∧ (∀ (i j : nat) call call' (K : string), (i ≤ j)%nat →
       calls !! i = Some call → calls !! j = Some call' →
       is_Some (ctx_locals call.2 !! K) → is_Some (ctx_locals call'.2 !! K))
  ∧ (∀ h c, (h, c) ∈ handler_calls (trace m) →
       ctx_locals c = merged_locals initialLocals calls
       ∧ (∀ i call (K : string), calls !! i = Some call →
            is_Some (ctx_locals call.2 !! K) → is_Some (ctx_locals c !! K))
       ∧ (∀ (j : nat) call (K : string) v, calls !! j = Some call →
            patch_of call !! K = Some v →
            (∀ (k : nat) call', j < k → calls !! k = Some call' → patch_of call' !! K = None) →
            ctx_locals c !! K = Some v)
       ∧ (∀ K : string, (∀ call, call ∈ calls → patch_of call !! K = None) →
            ctx_locals c !! K = initialLocals !! K)).
Proof.
  intros Hmatch m calls.
  pose proof (handle_calls router request initialLocals matched Hmatch) as Hcalls.
  simpl in Hcalls. fold m in Hcalls.
  destruct (outcome (handle_context router request initialLocals matched))
    as [t|c0] eqn:Hhc.
  { destruct Hcalls as (_ & Hg & Hh & _). fold calls in Hg. rewrite Hh.
    clearbody calls. subst calls. split_and!; [done|done|]. intros h c Hin.
    by apply elem_of_nil in Hin. }
  destruct Hcalls as (_ & Hg & Hh & _). fold calls in Hg.
  destruct (handle_context_fields _ _ _ _ _ Hhc) as (_ & _ & _ & Hinit & _).
  destruct (run_guards_spec (default [] (h_guards (rm_handler matched))) c0)
    as (calls' & Htr & _ & Hctx & _ & Hend).
  rewrite Htr, guard_calls_guards in Hg. rewrite Hh. clearbody calls m. subst calls'.
  rewrite Hinit in Hctx.
  assert (H1 : ∀ i call, calls !! i = Some call →
            ctx_locals call.2 = merged_locals initialLocals (take i calls)).
  { intros i call Hi. by rewrite (Hctx i call Hi). }
  split_and!; [done| |].
  - intros i j call call' K Hij Hi Hj.
    rewrite (H1 _ _ Hi), (H1 _ _ Hj).
    replace (take j calls) with (take i calls ++ drop i (take j calls)).
    + apply merged_locals_mono.
    + rewrite <- (take_drop i (take j calls)) at 2. f_equal.
      rewrite take_take. f_equal. lia.
  - intros h c Hin.
    destruct (outcome (run_guards _ c0)) as [t|[rr|c']];
      try (by apply elem_of_nil in Hin).
    apply list_elem_of_singleton in Hin. injection Hin as -> ->.
    destruct Hend as (_ & _ & ->). simpl. rewrite Hinit.
    split_and!; [done| | |].
    + intros i call K Hi. rewrite (H1 _ _ Hi).
      rewrite <- (take_drop i calls) at 2. apply merged_locals_mono.
    + intros j call K v Hj Hpatch Hlater.
      rewrite <- (take_drop_middle calls j call Hj).
      apply merged_locals_lookup_last; [done|].
      intros call' Hin. apply list_elem_of_lookup in Hin as [k Hk].
      rewrite lookup_drop in Hk. apply (Hlater (S j + k)); [lia|done].
    + intros K. apply merged_locals_lookup_none.
Qed.

(** C2. Along the guard chain the locals only grow.  Once validation has
    returned, each guard of the route is called, as long as the guards before
    it allow, with the union of the initial locals and of the patches of the
    guards called before it, a later patch taking precedence; when all the
    guards allow, the handler is called with the union over all of them, and
    its response is returned with that context.  So a key that some context
    has is in every later context, the handler reads at a key the value of the
    last patch that sets it, and a key that no patch sets keeps its initial
    value. *)
Theorem locals_accumulate (router : Router) (request : Request)
    (initialLocals : gmap string JsVal) (matched : RouteMatch) :
  match_ router (req_method request) (req_url request) = Some matched →
  let m := handle router request initialLocals in
  let chain := effective_guards (rm_handler matched) in
  let h := h_handler (rm_handler matched) in
  let calls := guard_calls (trace m) in
  (∀ i call, calls !! i = Some call →
     ctx_locals call.2 = merged_locals initialLocals (take i calls))
  ∧ (∀ (i j : nat) call call' (K : string), (i ≤ j)%nat →
       calls !! i = Some call → calls !! j = Some call' →
       is_Some (ctx_locals call.2 !! K) → is_Some (ctx_locals call'.2 !! K))
  ∧ (∀ h c, (h, c) ∈ handler_calls (trace m) →
       ctx_locals c = merged_locals initialLocals calls
       ∧ (∀ i call (K : string), calls !! i = Some call →
            is_Some (ctx_locals call.2 !! K) → is_Some (ctx_locals c !! K))
       ∧ (∀ (j : nat) call (K : string) v, calls !! j = Some call →
            patch_of call !! K = Some v →
            (∀ (k : nat) call', j < k → calls !! k = Some call' → patch_of call' !! K = None) →
            ctx_locals c !! K = Some v)
       ∧ (∀ K : string, (∀ call, call ∈ calls → patch_of call !! K = None) →
            ctx_locals c !! K = initialLocals !! K))
  ∧ (is_Some (router_validator router) ∨ h_request (rm_handler matched) = None →
     (∀ (i : nat) g, chain !! i = Some g →
        (∀ (j : nat) call, j < i → calls !! j = Some call → allows call) →
        ∃ c, calls !! i = Some (g, c)
          ∧ ctx_locals c = merged_locals initialLocals (take i calls))
     ∧ (Forall allows calls →
        calls.*1 = chain
        ∧ ∃ c, handler_calls (trace m) = [(h, c)]
            ∧ ctx_locals c = merged_locals initialLocals calls
            ∧ ∀ response, h c = inr response →
                outcome m = inr {| rr_response := response; rr_context := c |})).
Proof.
  intros Hmatch m chain h calls.
  destruct (guard_locals_accumulate router request initialLocals matched Hmatch)
    as (Hcalls & Hgrow & Hhandler).
  fold m calls in Hcalls, Hgrow, Hhandler.
  split_and!; [exact Hcalls|exact Hgrow|exact Hhandler|].
  intros Hok.
  destruct (handle_context_returns router request initialLocals matched Hok)
    as [c0 Hhc].
  split.
  - intros i g Hg Hbefore.
    destruct (handle_guard_reached _ _ _ _ _ i g Hmatch Hhc Hg Hbefore) as [c Hi].
    exists c. split; [exact Hi|]. exact (Hcalls i (g, c) Hi).
  - intros Hall.
    destruct (handle_end_state _ _ _ _ _ Hmatch Hhc) as (_ & _ & Hend).
    fold m calls h in Hend. clearbody calls m. unfold GuardFn in *.
    assert (Hlast : ∀ call, list.last calls = Some call → allows call).
    { intros call Hl. rewrite last_lookup in Hl.
      exact (Forall_lookup_1 _ _ _ _ Hall Hl). }
    destruct Hend as [(call & t & Hl & Hthrow & _)
                     |[(call & deny & Hl & Hdeny & _)|(Heq & _ & Hh & Hout)]].
    + destruct (Hlast call Hl) as [locals Hal]. unfold GuardFn in *. congruence.
    + destruct (Hlast call Hl) as [locals Hal]. unfold GuardFn in *. congruence.
    + split; [done|]. eexists. split; [done|]. split; [done|].
      intros response Hresponse. by rewrite Hout, Hresponse.
Qed.

(** C3. The guards of a matched route run one after the other in the order of
    its guard list: the guards called are a prefix of the list, the first is
    called as soon as validation has returned, and the next one is called
    after each guard that allows.  At the first denial the dispatcher returns
    the denial's response: no further guard and no handler is called.
    [group] puts the guards of the group before the guards each handler
    already has, and so an outer group's guards before an inner group's. *)
Theorem guards_run_in_order_until_denial (router : Router) (request : Request)
    (initialLocals : gmap string JsVal) (matched : RouteMatch) :
  match_ router (req_method request) (req_url request) = Some matched →
  let m := handle router request initialLocals in
  let chain := effective_guards (rm_handler matched) in
  let calls := guard_calls (trace m) in
  calls.*1 `prefix_of` chain
  ∧ (is_Some (router_validator router) ∨ h_request (rm_handler matched) = None →
     0 < length chain → 0 < length calls)
  ∧ (∀ i call, calls !! i = Some call → allows call →
       S i < length chain → S i < length calls)
  ∧ (∀ i call deny, calls !! i = Some call → call.1 call.2 = inr (Deny deny) →
       length calls = S i
       ∧ handler_calls (trace m) = []
       ∧ outcome m = inr {| rr_response := deny; rr_context := call.2 |})
  ∧ (∀ options,
       effective_guards <$> group options
       = (λ h, default [] (guards options) ++ effective_guards h)
           <$> group_loop (handlers options))
  ∧ (∀ inner outer,
       effective_guards
         <$> group {| handlers := [HGArray (HGHandler <$> group inner)];
                      guards := outer |}
       = (λ h, default [] outer ++ default [] (guards inner) ++ effective_guards h)
           <$> group_loop (handlers inner)).
Proof.
  intros Hmatch m chain calls.
  assert (Hgroup : ∀ inner outer,
    effective_guards
      <$> group {| handlers := [HGArray (HGHandler <$> group inner)]; guards := outer |}
    = (λ h, default [] outer ++ default [] (guards inner) ++ effective_guards h)
        <$> group_loop (handlers inner)).
  { intros inner outer. rewrite group_effective_guards. simpl.
    rewrite group_loop_cons_array, group_loop_handlers, group_loop_nil,
      (right_id_L [] (++)).
    rewrite (list_fmap_compose effective_guards (λ gs, default [] outer ++ gs)).
    rewrite group_effective_guards, <- list_fmap_compose. done. }
  pose proof (handle_calls router request initialLocals matched Hmatch) as Hcalls.
  simpl in Hcalls. fold m in Hcalls.
  destruct (outcome (handle_context router request initialLocals matched))
    as [t|c0] eqn:Hhc.
  { destruct Hcalls as (_ & Hg & _ & _). fold calls in Hg.
    split_and!; [| | | |apply group_effective_guards|apply Hgroup].
    - rewrite Hg. apply prefix_nil.
    - intros Hok _.
      destruct (handle_context_returns router request initialLocals matched Hok)
        as [c Hc]. congruence.
    - intros i call. by rewrite Hg.
    - intros i call deny. by rewrite Hg. }
  destruct Hcalls as (_ & Hg & Hh & Hout). fold calls in Hg.
  destruct (run_guards_spec chain c0) as (calls' & Htr & Hpre & _ & Hallow & Hend).
  change (default [] (h_guards (rm_handler matched))) with chain in Hg, Hh, Hout.
  rewrite Htr, guard_calls_guards in Hg. clearbody calls m. subst calls'.
  assert (Hlast : ∀ call call' i, list.last calls = Some call →
            calls !! i = Some call' → S i < length calls ∨ call' = call).
  { intros call call' i Hl Hi. rewrite last_lookup in Hl.
    apply lookup_lt_Some in Hi as Hlt.
    destruct (decide (S i < length calls)) as [|Hge]; [by left|right].
    assert (i = pred (length calls)) as -> by lia. congruence. }
  split_and!; [done| | | |apply group_effective_guards|apply Hgroup].
  - intros _ Hlen.
    destruct (outcome (run_guards chain c0)) as [t|[rr|c']].
    + destruct Hend as (call & t0 & Hl & _). destruct calls; [done|simpl; lia].
    + destruct Hend as (call & Hl & _). destruct calls; [done|simpl; lia].
    + destruct Hend as (Heq & _). rewrite <- Heq, length_fmap in Hlen. done.
  - intros i call Hi [locals Hal] Hlt.
    destruct (outcome (run_guards chain c0)) as [t|[rr|c']].
    + destruct Hend as (call' & t0 & Hl & Hthrow & _).
      destruct (Hlast _ _ _ Hl Hi) as [?| ->]; [done|unfold GuardFn in *; congruence].
    + destruct Hend as (call' & Hl & Hdeny & _).
      destruct (Hlast _ _ _ Hl Hi) as [?| ->]; [done|unfold GuardFn in *; congruence].
    + destruct Hend as (Heq & _). by rewrite <- Heq, length_fmap in Hlt.
  - intros i call deny Hi Hdeny.
    assert (Hlen : length calls = S i).
    { apply lookup_lt_Some in Hi as Hlt.
      destruct (decide (S i < length calls)) as [Hlt'|]; [|unfold GuardFn in *; lia].
      destruct (Hallow i call Hi Hlt') as [locals Hal]. unfold GuardFn in *. congruence. }
    assert (Hl : list.last calls = Some call).
    { rewrite last_lookup, Hlen. done. }
    split; [done|]. rewrite Hh, Hout.
    destruct (outcome (run_guards chain c0)) as [t|[rr|c']].
    + destruct Hend as (call' & t0 & Hl' & Hthrow & _). unfold GuardFn in *. congruence.
    + destruct Hend as (call' & Hl' & Hdeny' & Hctx).
      assert (call' = call) as -> by (unfold GuardFn in *; congruence).
      split; [done|]. destruct rr as [resp ctx]. simpl in *.
      unfold GuardFn in *. congruence.
    + destruct Hend as (_ & Hall & _).
      destruct (Forall_lookup_1 _ _ _ _ Hall Hi) as [locals Hal].
      unfold GuardFn in *. congruence.
Qed.

(** C6. On a matched route that declares no body schema, [handle] never reads
    the body of the request, whatever the request carries, and every context
    it shows has an undefined [raw.body]. *)
Theorem no_body_schema_no_read (router : Router) (request : Request)
    (initialLocals : gmap string JsVal) (matched : RouteMatch) :
  match_ router (req_method request) (req_url request) = Some matched →
  h_request (rm_handler matched) ≫= schema_body = None →
  let m := handle router request initialLocals in
  body_reads (trace m) = []
  ∧ (∀ r, EvReadBody r ∉ trace m)
  ∧ (∀ c, c ∈ shown_contexts m → raw_body (ctx_raw c) = JUndefined).
Proof.
  intros Hmatch Hnone m.
  assert (Hreads : body_reads (trace m) = []).
  { unfold m. rewrite (handle_reads_body _ _ _ _ Hmatch).
    apply omap_none_all. intros ev Hev.
    apply handle_context_events in Hev as [[_ Hsome]|(?&?&?&->)]; [|done].
    rewrite Hnone in Hsome. by destruct Hsome. }
  split_and!; [done| |].
  - intros r Hin.
    assert (r ∈ body_reads (trace m)) as Hr.
    { unfold body_reads. apply list_elem_of_omap. by exists (EvReadBody r). }
    rewrite Hreads in Hr. by apply elem_of_nil in Hr.
  - intros c Hc.
    destruct (handle_shown_contexts _ _ _ _ _ Hmatch Hc) as (c0 & Hc0 & _ & -> & _).
    destruct (handle_context_fields _ _ _ _ _ Hc0) as (result & _ & _ & _ & _ & _ & -> & _).
    by rewrite Hnone.
Qed.



(** ** The lifecycle wrapper *)

Lemma fetch_try_run (app : App) (request : Request) locals :
  request_hook_returns app request locals →
  fetch_try app request =
  bind ((if app_onRequest app is Some _ then [EvOnRequest request] else []), inr tt)
    (λ _, response <- handle (app_router app) request (default ∅ locals);
          match app_onResponse app with
          | Some onResponse =>
              _ <- log (EvOnResponse (rr_context response) (rr_response response));
              run (onResponse (rr_context response) (rr_response response))
          | None => ret (rr_response response)
          end).
Proof.
  unfold request_hook_returns, fetch_try.
  destruct (app_onRequest app) as [onRequest|].
  - by intros ->.
  - intros ->. change ([], inr tt) with (ret (A:=()) tt). by rewrite !bind_ret_l.
Qed.

Lemma fetch_run (app : App) (request : Request) :
  fetch app request =
  (trace (fetch_try app request)
     ++ match outcome (fetch_try app request) with
        | inl t => trace (fetch_catch app request t)
        | inr _ => []
        end,
   match outcome (fetch_try app request) with
   | inl t => outcome (fetch_catch app request t)
   | inr response => inr response
   end).
Proof.
  unfold fetch. by rewrite (M_eta (try_catch _ _)), trace_try_catch, outcome_try_catch.
Qed.

Lemma fetch_catch_run (app : App) (request : Request) (t : Thrown) :
  is_nullish (thrown_value t) = false →
  let context := default (minimal_context request) (thrown_context t) in
  fetch_catch app request t =
  (EvOnError t context :: trace (app_onError app t context),
   outcome (app_onError app t context)).
Proof.
  intros Hnn. simpl. unfold fetch_catch. rewrite Hnn.
  destruct (thrown_context t); simpl; by destruct (app_onError _ _ _).
Qed.

Lemma setupHttp_app (config : SetupArg) (app : App) :
  setupHttp config = inr app →
  router_validator (app_router app)
  = match config with HandlersOnly _ => None | WithConfig c => config_validator c end
  ∧ app_onError app
    = match config with
      | HandlersOnly _ => defaultOnError
      | WithConfig c =>
          match config_onError c with
          | Some h => λ error context, run (h error context)
          | None => defaultOnError
          end
      end
  ∧ app_onRequest app
    = match config with HandlersOnly _ => None | WithConfig c => config_onRequest c end
  ∧ app_onResponse app
    = match config with HandlersOnly _ => None | WithConfig c => config_onResponse c end.
Proof.
  unfold setupHttp, createRouter.
  destruct (compile_routes _) as [e|compiled]; [done|]. by intros [= <-].
Qed.

(** C7. When the route declares request schemas and no validator adapter is
    configured, validation throws instead of returning a failure variant.  The
    request then ends at the error boundary: once the pre-routing hook has
    returned, no guard, no handler and no response hook is called, the
    error-boundary hook is called with the error, and what it gives is the
    outcome of [fetch]; with the default error handler that is the response
    with status 500. *)
Theorem missing_validator_reaches_error_boundary (app : App) (request : Request)
    (locals : option (gmap string JsVal)) (matched : RouteMatch)
    (schemas : RequestSchemas) :
  router_validator (app_router app) = None →
  match_ (app_router app) (req_method request) (req_url request) = Some matched →
  h_request (rm_handler matched) = Some schemas →
  request_hook_returns app request locals →
  (∀ raw bodyParseError,
     validateInputs None (Some schemas) raw bodyParseError = throw missing_validator_error)
  ∧ outcome (handle (app_router app) request (default ∅ locals))
    = inl missing_validator_error
  ∧ (∃ tr, trace (fetch app request)
           = tr ++ EvOnError missing_validator_error (minimal_context request)
                :: trace (app_onError app missing_validator_error
                            (minimal_context request))
         ∧ guard_calls tr = [] ∧ handler_calls tr = [] ∧ response_hook_calls tr = [])
  ∧ outcome (fetch app request)
    = outcome (app_onError app missing_validator_error (minimal_context request))
  ∧ (app_onError app = defaultOnError →
     outcome (fetch app request) = inr internal_server_error
     ∧ status internal_server_error = 500)
  ∧ (∀ config, setupHttp config = inr app →
       match config with
       | HandlersOnly _ => True
       | WithConfig c => config_onError c = None
       end →
       outcome (fetch app request) = inr internal_server_error).
Proof.
  intros Hvalidator Hmatch Hschemas Hhook.
  pose proof (handle_calls (app_router app) request (default ∅ locals) matched Hmatch)
    as Hcalls. simpl in Hcalls.
  destruct (handle_context_quiet (app_router app) request (default ∅ locals) matched)
    as (Hqg & Hqh & _).
  assert (Hhc : outcome (handle_context (app_router app) request (default ∅ locals)
                           matched) = inl missing_validator_error).
  { destruct (handle_context_spec (app_router app) request (default ∅ locals) matched)
      as (result & _ & ->). simpl. by rewrite Hvalidator, Hschemas. }
  rewrite Hhc in Hcalls. destruct Hcalls as (Htr & _ & _ & Hout).
  assert (Htry : fetch_try app request
    = ((if app_onRequest app is Some _ then [EvOnRequest request] else [])
         ++ trace (handle_context (app_router app) request (default ∅ locals) matched),
       inl missing_validator_error)).
  { rewrite (fetch_try_run _ _ _ Hhook).
    rewrite (M_eta (handle _ _ _)), Htr, Hout. done. }
  assert (Hfetch : fetch app request
    = (((if app_onRequest app is Some _ then [EvOnRequest request] else [])
          ++ trace (handle_context (app_router app) request (default ∅ locals) matched))
         ++ EvOnError missing_validator_error (minimal_context request)
              :: trace (app_onError app missing_validator_error
                          (minimal_context request)),
       outcome (app_onError app missing_validator_error (minimal_context request)))).
  { rewrite fetch_run, Htry. simpl. by rewrite fetch_catch_run. }
  split_and!.
  - done.
  - done.
  - eexists. rewrite Hfetch. split; [done|].
    unfold guard_calls, handler_calls, response_hook_calls in *.
    rewrite !omap_app, Hqg, Hqh.
    split_and!; try (by destruct (app_onRequest app)).
    destruct (app_onRequest app); simpl; apply omap_none_all; intros ev Hev;
      apply handle_context_events in Hev as [[-> _]|(?&?&?&->)]; done.
  - by rewrite Hfetch.
  - intros Hdefault. by rewrite Hfetch, Hdefault.
  - intros config Hsetup Hdefault.
    destruct (setupHttp_app config app Hsetup) as (_ & HonError & _).
    rewrite Hfetch, HonError. destruct config as [l|c]; [done|]. by rewrite Hdefault.
Qed.

(** C8, as amended. When a response hook is configured and the dispatcher
    returns, the hook is called once, last, with the context and the response
    that the dispatcher returned, and what the hook returns is the outcome of
    [fetch].  The dispatcher returns a context in every case: when no route
    matches it returns the context it makes up together with the 404 response,
    and the hook is called with these. *)
Theorem response_hook_runs_whenever_dispatch_returns (app : App) (request : Request)
    (hook : OnResponseHandler) (locals : option (gmap string JsVal))
    (rr : RouterResponse) :
  app_onResponse app = Some hook →
  request_hook_returns app request locals →
  outcome (handle (app_router app) request (default ∅ locals)) = inr rr →
  (∃ tr, trace (fetch_try app request)
         = tr ++ [EvOnResponse (rr_context rr) (rr_response rr)]
       ∧ response_hook_calls tr = [])
  ∧ outcome (fetch_try app request) = hook (rr_context rr) (rr_response rr)
  ∧ (∀ response, hook (rr_context rr) (rr_response rr) = inr response →
       fetch app request = (trace (fetch_try app request), inr response))
  ∧ (match_ (app_router app) (req_method request) (req_url request) = None →
     rr = {| rr_response := not_found_response;
             rr_context := minimal_context request |}).
Proof.
  intros Hhook Hrequest Hrr.
  assert (Htry : fetch_try app request
    = (((if app_onRequest app is Some _ then [EvOnRequest request] else [])
          ++ trace (handle (app_router app) request (default ∅ locals)))
         ++ [EvOnResponse (rr_context rr) (rr_response rr)],
       hook (rr_context rr) (rr_response rr))).
  { rewrite (fetch_try_run _ _ _ Hrequest), Hhook.
    rewrite (M_eta (handle _ _ _)), Hrr. simpl.
    by rewrite (assoc_L (++)). }
  split_and!.
  - eexists. rewrite Htry. split; [done|].
    unfold response_hook_calls. rewrite omap_app.
    fold (response_hook_calls (trace (handle (app_router app) request (default ∅ locals)))).
    rewrite handle_no_response_hook. by destruct (app_onRequest app).
  - by rewrite Htry.
  - intros response Hresponse. rewrite fetch_run, Htry. simpl.
    by rewrite Hresponse, (right_id_L [] (++)).
  - intros Hnone. rewrite handle_phases, Hnone in Hrr. by injection Hrr as <-.
Qed.

(** C9. The context that the framework makes up, for the 404 response and for
    an error that carries no context, has empty params and query, an undefined
    body, empty locals and an input state with [ok = true].  [handle] returns
    it with the 404 response, having validated nothing, when no route matches;
    [fetch] passes it to the error-boundary hook when the caught error carries
    no context; and the response hook is called with it when no route
    matches. *)
Theorem synthesized_contexts_report_success (request : Request) :
  let c := minimal_context request in
  (raw_params (ctx_raw c) = ∅ ∧ raw_query (ctx_raw c) = ∅
   ∧ raw_body (ctx_raw c) = JUndefined ∧ ctx_locals c = ∅
   ∧ ctx_input c = InputOk (JObj ∅) (JObj ∅) JUndefined
   ∧ input_ok (ctx_input c) = true)
  ∧ (∀ router initialLocals,
       match_ router (req_method request) (req_url request) = None →
       handle router request initialLocals
       = ([], inr {| rr_response := not_found_response; rr_context := c |}))
  ∧ (∀ app t,
       outcome (fetch_try app request) = inl t →
       thrown_context t = None → is_nullish (thrown_value t) = false →
       fetch app request
       = (trace (fetch_try app request)
            ++ EvOnError t c :: trace (app_onError app t c),
          outcome (app_onError app t c)))
  ∧ (∀ app hook locals,
       app_onResponse app = Some hook →
       request_hook_returns app request locals →
       match_ (app_router app) (req_method request) (req_url request) = None →
       trace (fetch_try app request)
       = (if app_onRequest app is Some _ then [EvOnRequest request] else [])
           ++ [EvOnResponse c not_found_response]).
Proof.
  split_and!; try done.
  - intros router initialLocals Hnone. by rewrite handle_phases, Hnone.
  - intros app t Htry Hctx Hnn. rewrite fetch_run, Htry.
    rewrite (fetch_catch_run _ _ _ Hnn), Hctx. done.
  - intros app hook locals Hhook Hrequest Hnone.
    rewrite (fetch_try_run _ _ _ Hrequest), Hhook, handle_phases, Hnone.
    by destruct (app_onRequest app).
Qed.
End Properties.

(** * Further properties *)

Section FurtherProperties.
Context `{!Runtime}.

(** ** The query string *)

Lemma values_of_snoc key pairs k v :
  values_of key (pairs ++ [(k, v)])
  = values_of key pairs ++ (if decide (k = key) then [v] else []).
Proof.
  unfold values_of. rewrite list.filter_app, fmap_app. f_equal.
  rewrite list.filter_cons. simpl. by case_decide.
Qed.

Lemma parseQuery_step_other result k v key :
  key ≠ k → parseQuery_step result k v !! key = result !! key.
Proof.
  intros Hne. unfold parseQuery_step.
  repeat case_match; by rewrite lookup_insert_ne.
Qed.

(** X1. [parseQuery] gives each key of the query string its values in the
    order of the query string.  As long as no key replaces the prototype of
    the result, a key that does not occur has no entry; a key that a plain
    object does not inherit has the string itself when it occurs once and the
    array of all its values when it occurs more than once; a key that a plain
    object inherits from [Object.prototype] has the array of the inherited
    function followed by its values, even when it occurs once.  Where
    [Object.prototype] has the accessor [__proto__], the values of that key end
    up in the array that replaces the prototype. *)
Theorem parseQuery_lookup (url key : string) :
  let pairs := URL_searchParams url in
  (keeps_prototype pairs →
   parseQuery url !! key
   = if Object_prototype key
     then inherited_entry (builtin "Object.prototype" key) (values_of key pairs)
     else query_entry (values_of key pairs))
  ∧ (proto_accessor = true →
     parseQuery url !! "__proto__"
     = inherited_entry (JBuiltin "Object.prototype") (values_of "__proto__" pairs)).
Proof.
  unfold parseQuery. simpl. split.
  - revert key.
    induction (URL_searchParams url) as [|[k v] pairs IH] using rev_ind;
      intros key Hkeeps.
    { simpl. by destruct (Object_prototype key). }
    assert (Hkeeps' : keeps_prototype pairs ∧ proto_accessor && bool_decide (k = "__proto__") = false).
    { destruct Hkeeps as [Hhost|Hnone].
      - split; [by left|]. by rewrite Hhost.
      - rewrite values_of_snoc in Hnone. apply app_eq_nil in Hnone as [Hnone Hk].
        split; [by right|]. case_decide; [done|].
        rewrite bool_decide_eq_false_2 by done. apply andb_false_r. }
    destruct Hkeeps' as [Hkeeps' Hslot].
    assert (Hproto : prototype_array (foldl (λ result '(key, value),
                        parseQuery_step result key value) ∅ pairs) = None).
    { unfold prototype_array. destruct proto_accessor eqn:Hhost; [|done].
      rewrite (IH "__proto__" Hkeeps').
      destruct Hkeeps' as [?| ->]; [congruence|]. by destruct (Object_prototype _). }
    rewrite foldl_app, values_of_snoc. cbn [foldl].
    set (result := foldl _ ∅ pairs) in *.
    destruct (decide (k = key)) as [->|Hne].
    + unfold parseQuery_step. rewrite Hslot. unfold inherited. rewrite Hproto.
      rewrite (IH key Hkeeps').
      destruct (Object_prototype key).
      * destruct (values_of key pairs) as [|v0 vs]; simpl;
          by rewrite lookup_insert_eq.
      * destruct (values_of key pairs) as [|v0 [|v1 vs]]; simpl;
          by rewrite lookup_insert_eq.
    + rewrite (right_id_L [] (++)), <- (IH key Hkeeps').
      by apply parseQuery_step_other.
  - intros Hhost.
    induction (URL_searchParams url) as [|[k v] pairs IH] using rev_ind; [done|].
    rewrite foldl_app, values_of_snoc. cbn [foldl].
    set (result := foldl _ ∅ pairs) in *.
    destruct (decide (k = "__proto__")) as [->|Hne].
    + unfold parseQuery_step. rewrite Hhost. cbn [andb bool_decide decide_rel].
      rewrite bool_decide_eq_true_2 by done. rewrite IH.
      destruct (values_of "__proto__" pairs) as [|v0 vs]; simpl;
        by rewrite lookup_insert_eq.
    + rewrite (right_id_L [] (++)), <- IH. by apply parseQuery_step_other.
Qed.

(** ** The validation gate *)

(** X2. On failure the [errors] map of the input state holds, for each part,
    the raw error of its evaluation: the adapter's error when it is not
    undefined, the parse error for a body that failed to parse, and nothing for
    a part that has no schema or passed.  The map is absent when no part
    leaves a raw error. *)
Theorem validateInputs_errors (validator : Validator)
    (schemas : option RequestSchemas) (raw : RawInput)
    (bodyParseError : option ErrorObj) :
  let raw_error := part_error validator schemas raw bodyParseError in
  match outcome (validateInputs (Some validator) schemas raw bodyParseError) with
  | inr (InputErr _ _ _ errors) =>
      errors =
      (if decide (raw_error PartParams = None ∧ raw_error PartQuery = None
                  ∧ raw_error PartBody = None)
       then None
       else Some {| errors_params := raw_error PartParams;
                    errors_query := raw_error PartQuery;
                    errors_body := raw_error PartBody |})
  | _ => True
  end.
Proof.
  destruct schemas as [[sp sq sb]|]; [|done].
  unfold validateInputs, part_error, call_validate; simpl.
  destruct sp as [sp|], sq as [sq|], sb as [sb|], bodyParseError as [e|]; simpl;
    repeat match goal with
           | |- context [validate ?v ?s ?i ?p] =>
               let err := fresh "err" in
               destruct (validate v s i p) as [?|? err]; simpl;
               try destruct err; simpl
           end; try done.
Qed.

(** X3. A body-parse error counts only for a declared body: when the route
    declares no body schema, [validateInputs] returns the same with and without
    the parse error. *)
Theorem validateInputs_ignores_parse_error (validator : option Validator)
    (schemas : option RequestSchemas) (raw : RawInput) (e : ErrorObj) :
  part_schema schemas PartBody = None →
  validateInputs validator schemas raw (Some e)
  = validateInputs validator schemas raw None.
Proof.
  destruct schemas as [[sp sq sb]|]; [|done]. simpl. intros ->.
  by destruct validator.
Qed.

(** X4. With an adapter that tags each issue with the part it validates, every
    issue of a failure variant belongs to a part listed in [failed]; the issue
    made for a body that failed to parse belongs to the body. *)
Theorem issues_belong_to_failed_parts (validator : Validator)
    (schemas : option RequestSchemas) (raw : RawInput)
    (bodyParseError : option ErrorObj) :
  tags_issues validator →
  match outcome (validateInputs (Some validator) schemas raw bodyParseError) with
  | inr input =>
      Forall (λ issue, issue_part issue ∈ state_failed input) (state_issues input)
  | inl _ => False
  end.
Proof.
  intros Htags. destruct schemas as [[sp sq sb]|]; [|by constructor].
  unfold validateInputs, call_validate; simpl.
  destruct sp as [sp|], sq as [sq|], sb as [sb|], bodyParseError as [e|]; simpl;
    repeat match goal with
           | |- context [validate ?v ?s ?i ?p] =>
               let Hv := fresh "Hv" in
               destruct (validate v s i p) eqn:Hv; simpl;
               try apply Htags in Hv
           end;
    rewrite ?list.Forall_app, ?list.Forall_cons, ?list.Forall_nil; repeat split;
    first [ by (eapply list.Forall_impl; [eassumption|]; simpl; intros ? ->;
                set_solver)
          | by (simpl; set_solver) ].
Qed.

(** ** The phases of a dispatch *)

Lemma body_reads_validates (tr : list Event) :
  Forall is_validate tr → body_reads tr = [].
Proof.
  intros Hall. apply omap_none_all. intros ev Hev.
  rewrite list.Forall_forall in Hall. by destruct (Hall ev Hev) as (?&?&?&->).
Qed.

Lemma validateInputs_all_validates validator schemas raw bodyParseError :
  Forall is_validate (trace (validateInputs validator schemas raw bodyParseError)).
Proof. apply list.Forall_forall. intros ev. apply validateInputs_events. Qed.

Lemma handle_context_trace router request initialLocals matched :
  ∃ validates,
    trace (handle_context router request initialLocals matched)
    = (EvReadBody <$> expected_reads request matched) ++ validates
    ∧ Forall is_validate validates
    ∧ body_reads (trace (handle_context router request initialLocals matched))
      = expected_reads request matched.
Proof.
  destruct (handle_context_spec router request initialLocals matched)
    as (result & _ & ->). simpl. eexists. split; [|split].
  - f_equal. unfold expected_reads.
    destruct (h_request (rm_handler matched) ≫= schema_body); [|done].
    rewrite parseBody_trace. by destruct (req_body request).
  - apply validateInputs_all_validates.
  - unfold body_reads, expected_reads. rewrite omap_app.
    fold (body_reads (trace (validateInputs (router_validator router)
      (h_request (rm_handler matched))
      {| in_params := param_value <$> rm_params matched;
         in_query := query_value <$> parseQuery (req_url request);
         in_body := if h_request (rm_handler matched) ≫= schema_body is Some _
                    then parsed result else JUndefined |}
      (if h_request (rm_handler matched) ≫= schema_body is Some _
       then error result else None)))).
    rewrite (body_reads_validates _ (validateInputs_all_validates _ _ _ _)).
    rewrite (right_id_L [] (++)).
    destruct (h_request (rm_handler matched) ≫= schema_body); [|done].
    rewrite parseBody_trace. by destruct (req_body request).
Qed.

(** X5. [handle] reads the body of a request at most once: exactly once when
    the matched route declares a body schema and the request has a body, and
    not at all otherwise, whatever validation, the guards and the handler
    do. *)
Theorem handle_reads_body_once (router : Router) (request : Request)
    (initialLocals : gmap string JsVal) :
  body_reads (trace (handle router request initialLocals))
  = match match_ router (req_method request) (req_url request) with
    | Some matched => expected_reads request matched
    | None => []
    end.
Proof.
  destruct (match_ router (req_method request) (req_url request)) as [matched|]
    eqn:Hmatch.
  - rewrite (handle_reads_body _ _ _ _ Hmatch).
    by destruct (handle_context_trace router request initialLocals matched)
      as (validates & _ & _ & ->).
  - by rewrite handle_phases, Hmatch.
Qed.

(** X6. On a matched route the calls of [handle] come in phases: the read of
    the body, then the calls of the validator adapter, then the guards, then
    the handler, which is called at most once. *)
Theorem handle_phase_order (router : Router) (request : Request)
    (initialLocals : gmap string JsVal) (matched : RouteMatch) :
  match_ router (req_method request) (req_url request) = Some matched →
  let tr := trace (handle router request initialLocals) in
  ∃ validates,
    tr = (EvReadBody <$> body_reads tr) ++ validates
           ++ ((λ call, EvGuard call.1 call.2) <$> guard_calls tr)
           ++ ((λ call, EvHandler call.1 call.2) <$> handler_calls tr)
    ∧ Forall is_validate validates
    ∧ (length (handler_calls tr) ≤ 1)%nat.
Proof.
  intros Hmatch tr.
  pose proof (handle_reads_body _ _ initialLocals _ Hmatch) as Hreads.
  pose proof (handle_calls router request initialLocals matched Hmatch) as Hcalls.
  simpl in Hcalls. fold tr in Hreads, Hcalls.
  destruct (handle_context_trace router request initialLocals matched)
    as (validates & Hhc & Hval & Hrs).
  rewrite Hrs in Hreads. rewrite Hreads. exists validates.
  destruct (outcome (handle_context router request initialLocals matched)) as [t|c0].
  - destruct Hcalls as (Htr & -> & -> & _). simpl.
    rewrite Htr, Hhc, !(right_id_L [] (++)). split_and!; [done|done|lia].
  - destruct Hcalls as (Htr & Hg & Hh & _).
    destruct (run_guards_spec (default [] (h_guards (rm_handler matched))) c0)
      as (calls & Hgt & _).
    rewrite Hgt, guard_calls_guards in Hg. rewrite Hg, Hh, Htr, Hhc, Hgt.
    rewrite <- (assoc_L (++)).
    destruct (outcome (run_guards _ c0)) as [?|[?|?]]; simpl;
      (split_and!; [done|done|lia]).
Qed.

(** ** How a dispatch ends *)

(** The guard phase of [handle] on a matched route, once validation has
    returned the context [c0]: the guards called, and the three ways in which
    the dispatch ends. *)
(** X7. When a guard throws, the dispatch stops there: no further guard and no
    handler is called.  An error that accepts the assignment of [context]
    propagates with the context in which that guard was called, whose locals
    are those of the guards before it.  An error that is not an object, or an
    object that rejects the assignment (frozen, not extensible, or with a
    read-only [context]), cannot carry the context: the TypeError of the
    failed assignment propagates in its place, and it has no context. *)
Theorem guard_throw_carries_entering_context (router : Router) (request : Request)
    (initialLocals : gmap string JsVal) (matched : RouteMatch) :
  match_ router (req_method request) (req_url request) = Some matched →
  let m := handle router request initialLocals in
  let calls := guard_calls (trace m) in
  ∀ (i : nat) call t, calls !! i = Some call → call.1 call.2 = inl t →
    length calls = S i
    ∧ handler_calls (trace m) = []
    ∧ ctx_locals call.2 = merged_locals initialLocals (take i calls)
    ∧ outcome m
      = inl (if accepts_context t
             then {| thrown_value := thrown_value t; thrown_context := Some call.2;
                     thrown_readonly := false |}
             else engine_TypeError)
    ∧ thrown_context engine_TypeError = None.
Proof.
  intros Hmatch m calls i call t Hi Hthrow.
  pose proof (handle_calls router request initialLocals matched Hmatch) as Hcalls.
  simpl in Hcalls. fold m in Hcalls.
  destruct (outcome (handle_context router request initialLocals matched))
    as [t'|c0] eqn:Hhc.
  { destruct Hcalls as (_ & Hg & _). fold calls in Hg. by rewrite Hg in Hi. }
  clear Hcalls.
  destruct (handle_end_state _ _ _ _ _ Hmatch Hhc) as (Hctx & Hallow & Hend).
  fold m calls in Hctx, Hallow, Hend. clearbody calls m. unfold GuardFn in *.
  assert (Hnot : ¬ allows call).
  { intros [locals Hal]. unfold GuardFn in *. congruence. }
  assert (Hlen : length calls = S i).
  { apply lookup_lt_Some in Hi as Hlt.
    destruct (decide (S i < length calls)) as [Hlt'|]; [|unfold GuardFn in *; lia].
    destruct Hnot. exact (Hallow i call Hi Hlt'). }
  assert (Hl : list.last calls = Some call).
  { rewrite last_lookup. unfold GuardFn in *. by rewrite Hlen. }
  split; [done|].
  destruct Hend as [(call' & t' & Hl' & Hthrow' & Hh & Hout)
                   |[(call' & deny & Hl' & Hdeny & _)|(_ & Hall & _)]].
  - assert (call' = call) as -> by (unfold GuardFn in *; congruence).
    assert (t' = t) as -> by (unfold GuardFn in *; congruence).
    split; [done|]. split; [by rewrite (Hctx i call Hi) at 1|].
    split; [by rewrite Hout|done].
  - assert (call' = call) as -> by (unfold GuardFn in *; congruence).
    unfold GuardFn in *. congruence.
  - destruct Hnot. exact (Forall_lookup_1 _ _ _ _ Hall Hi).
Qed.

(** X8. When validation has returned and every guard that is called allows,
    all the guards of the route are called and then the handler, exactly once,
    with the locals of all the guards; the dispatcher returns the handler's
    response with that context.  An error thrown by the handler propagates
    with that context attached when it accepts the assignment of [context];
    when it is not an object, or is an object that rejects the assignment
    (frozen, not extensible, or with a read-only [context]), the TypeError of
    the failed assignment propagates in its place, without context. *)
Theorem handler_runs_after_all_guards (router : Router) (request : Request)
    (initialLocals : gmap string JsVal) (matched : RouteMatch) :
  match_ router (req_method request) (req_url request) = Some matched →
  is_Some (router_validator router) ∨ h_request (rm_handler matched) = None →
  let m := handle router request initialLocals in
  let calls := guard_calls (trace m) in
  let h := h_handler (rm_handler matched) in
  Forall allows calls →
  calls.*1 = effective_guards (rm_handler matched)
  ∧ ∃ c, handler_calls (trace m) = [(h, c)]
      ∧ ctx_locals c = merged_locals initialLocals calls
      ∧ outcome m
        = match h c with
          | inl t =>
              inl (if accepts_context t
                   then {| thrown_value := thrown_value t; thrown_context := Some c;
                           thrown_readonly := false |}
                   else engine_TypeError)
          | inr response => inr {| rr_response := response; rr_context := c |}
          end
      ∧ thrown_context engine_TypeError = None.
Proof.
  intros Hmatch Hok m calls h Hall.
  destruct (handle_context_returns router request initialLocals matched Hok)
    as [c0 Hhc].
  destruct (handle_end_state _ _ _ _ _ Hmatch Hhc) as (_ & _ & Hend).
  fold m calls h in Hend. clearbody calls m. unfold GuardFn in *.
  assert (Hlast : ∀ call, list.last calls = Some call → allows call).
  { intros call Hl. rewrite last_lookup in Hl.
    exact (Forall_lookup_1 _ _ _ _ Hall Hl). }
  destruct Hend as [(call & t & Hl & Hthrow & _)
                   |[(call & deny & Hl & Hdeny & _)|(Heq & _ & Hh & Hout)]].
  - destruct (Hlast call Hl) as [locals Hal]. unfold GuardFn in *. congruence.
  - destruct (Hlast call Hl) as [locals Hal]. unfold GuardFn in *. congruence.
  - split; [done|]. eexists. split; [done|]. split; [done|]. split; [|done].
    rewrite Hout. by destruct (h _).
Qed.

(** X9. On a matched route the dispatcher makes up no response of its own: a
    response that it returns is the response of the denial of the last guard
    called, with that guard's context, or the response that the handler
    returned. *)
Theorem responses_come_from_guard_or_handler (router : Router) (request : Request)
    (initialLocals : gmap string JsVal) (matched : RouteMatch) (rr : RouterResponse) :
  match_ router (req_method request) (req_url request) = Some matched →
  let m := handle router request initialLocals in
  outcome m = inr rr →
  (∃ call, list.last (guard_calls (trace m)) = Some call
     ∧ call.1 call.2 = inr (Deny (rr_response rr))
     ∧ rr_context rr = call.2
     ∧ handler_calls (trace m) = [])
  ∨ (handler_calls (trace m) = [(h_handler (rm_handler matched), rr_context rr)]
     ∧ h_handler (rm_handler matched) (rr_context rr) = inr (rr_response rr)).
Proof.
  intros Hmatch m Hrr.
  pose proof (handle_calls router request initialLocals matched Hmatch) as Hcalls.
  simpl in Hcalls. fold m in Hcalls.
  destruct (outcome (handle_context router request initialLocals matched))
    as [t|c0] eqn:Hhc.
  { destruct Hcalls as (_ & _ & _ & Hout). congruence. }
  clear Hcalls.
  destruct (handle_end_state _ _ _ _ _ Hmatch Hhc) as (_ & _ & Hend).
  fold m in Hend. clearbody m. unfold GuardFn in *.
  destruct Hend as [(call & t & _ & _ & _ & Hout)
                   |[(call & deny & Hl & Hdeny & Hh & Hout)|(_ & _ & Hh & Hout)]].
  - congruence.
  - left. rewrite Hout in Hrr. injection Hrr as <-. by exists call.
  - right. rewrite Hh.
    destruct (h_handler (rm_handler matched) _) as [t|response] eqn:Hhandler;
      rewrite Hout in Hrr; [done|].
    injection Hrr as <-. done.
Qed.

(** X10. The raw values do not depend on validation or on the guards: every
    context that [handle] shows on a matched route has the request, the
    parameters of the match and the parsed query string, and all of them have
    the same raw values and the same input state. *)
Theorem raw_values_are_invariant (router : Router) (request : Request)
    (initialLocals : gmap string JsVal) (matched : RouteMatch) :
  match_ router (req_method request) (req_url request) = Some matched →
  let shown := shown_contexts (handle router request initialLocals) in
  (∀ c, c ∈ shown →
     ctx_request c = request
     ∧ raw_params (ctx_raw c) = rm_params matched
     ∧ raw_query (ctx_raw c) = parseQuery (req_url request))
  ∧ (∀ c c', c ∈ shown → c' ∈ shown →
       ctx_raw c = ctx_raw c' ∧ ctx_input c = ctx_input c').
Proof.
  intros Hmatch shown. split.
  - intros c Hc.
    destruct (handle_shown_contexts _ _ _ _ _ Hmatch Hc) as (c0 & Hc0 & -> & -> & _).
    by destruct (handle_context_fields _ _ _ _ _ Hc0)
      as (_ & _ & -> & _ & -> & -> & _).
  - intros c c' Hc Hc'.
    destruct (handle_shown_contexts _ _ _ _ _ Hmatch Hc) as (c0 & Hc0 & _ & -> & ->).
    destruct (handle_shown_contexts _ _ _ _ _ Hmatch Hc') as (c1 & Hc1 & _ & -> & ->).
    by assert (c1 = c0) as -> by congruence.
Qed.

Lemma handle_trace_prefix router request initialLocals matched :
  match_ router (req_method request) (req_url request) = Some matched →
  ∃ rest, trace (handle router request initialLocals)
          = trace (handle_context router request initialLocals matched) ++ rest
    ∧ Forall (λ ev, ¬ is_validate ev) rest.
Proof.
  intros Hmatch.
  pose proof (handle_calls router request initialLocals matched Hmatch) as Hcalls.
  simpl in Hcalls.
  destruct (outcome (handle_context router request initialLocals matched)) as [t|c0].
  { destruct Hcalls as (-> & _). exists []. by rewrite (right_id_L [] (++)). }
  destruct Hcalls as (-> & _). eexists. split; [done|].
  destruct (run_guards_spec (default [] (h_guards (rm_handler matched))) c0)
    as (calls & -> & _).
  apply list.Forall_app. split.
  - apply list.Forall_fmap, list.Forall_forall. by intros call _ (?&?&?&?).
  - destruct (outcome (run_guards _ c0)) as [?|[?|?]]; repeat constructor.
    by intros (?&?&?&?).
Qed.

(** X11. A route that declares no request schemas needs no validator adapter:
    the adapter is never called, the input state of every context is the
    success variant holding the raw params and query and an undefined body,
    and the dispatch goes on to the guards or the handler. *)
Theorem route_without_schemas (router : Router) (request : Request)
    (initialLocals : gmap string JsVal) (matched : RouteMatch) :
  match_ router (req_method request) (req_url request) = Some matched →
  h_request (rm_handler matched) = None →
  let m := handle router request initialLocals in
  Forall (λ ev, ¬ is_validate ev) (trace m)
  ∧ 0 < length (guard_calls (trace m)) + length (handler_calls (trace m))
  ∧ (∀ c, c ∈ shown_contexts m →
       ctx_input c
       = InputOk (JObj (param_value <$> raw_params (ctx_raw c)))
                 (JObj (query_value <$> raw_query (ctx_raw c))) JUndefined).
Proof.
  intros Hmatch Hnone m. split_and!.
  - destruct (handle_trace_prefix _ _ initialLocals _ Hmatch) as (rest & Htr & Hrest).
    fold m in Htr. rewrite Htr. apply list.Forall_app. split; [|done].
    destruct (handle_context_spec router request initialLocals matched)
      as (result & _ & ->). simpl. by rewrite Hnone.
  - apply (handle_proceeds _ _ _ _ Hmatch). by right.
  - intros c Hc.
    destruct (handle_shown_contexts _ _ _ _ _ Hmatch Hc) as (c0 & Hc0 & _ & -> & ->).
    destruct (handle_context_fields _ _ _ _ _ Hc0)
      as (result & _ & _ & _ & -> & -> & Hbody & Hv).
    rewrite Hnone in Hv, Hbody. simpl in Hv, Hbody. rewrite Hbody in Hv.
    by injection Hv as <-.
Qed.

(** X12. With a body schema declared, a body whose text [JSON.parse] accepts
    is stored as parsed, whatever the value ([null] included): every context
    that [handle] shows has it as [raw.body], and it is the value that the
    adapter is given to validate as the body. *)
Theorem parsed_body_is_stored (router : Router) (request : Request)
    (initialLocals : gmap string JsVal) (matched : RouteMatch)
    (schemas : RequestSchemas) (schema : SchemaLike) (text : string) (value : JsVal) :
  match_ router (req_method request) (req_url request) = Some matched →
  h_request (rm_handler matched) = Some schemas →
  schema_body schemas = Some schema →
  req_body request = Some (inr text) → text ≠ EmptyString →
  JSON_parse text = inr value →
  let m := handle router request initialLocals in
  (∀ c, c ∈ shown_contexts m → raw_body (ctx_raw c) = value)
  ∧ (is_Some (router_validator router) →
     EvValidate schema value PartBody ∈ trace m).
Proof.
  intros Hmatch Hschemas Hschema Hbody Htext Hparse m.
  assert (Hresult : outcome (parseBody request)
                    = inr {| parsed := value; error := None |}).
  { rewrite parseBody_spec, Hbody, Hparse. simpl.
    by destruct (decide (text = EmptyString)). }
  split.
  - intros c Hc.
    destruct (handle_shown_contexts _ _ _ _ _ Hmatch Hc) as (c0 & Hc0 & _ & -> & _).
    destruct (handle_context_fields _ _ _ _ _ Hc0)
      as (result & Hresult' & _ & _ & _ & _ & -> & _).
    rewrite Hschemas. simpl. rewrite Hschema.
    by assert (result = {| parsed := value; error := None |}) as -> by congruence.
  - intros [validator Hvalidator].
    destruct (handle_trace_prefix _ _ initialLocals _ Hmatch) as (rest & Htr & _).
    fold m in Htr. rewrite Htr. apply elem_of_app. left.
    destruct (handle_context_spec router request initialLocals matched)
      as (result & Hresult' & Heq). cbv zeta in Heq.
    assert (result = {| parsed := value; error := None |}) as -> by congruence.
    rewrite Heq. unfold trace at 1. cbn [fst]. apply elem_of_app. right.
    rewrite Hvalidator, validateInputs_trace.
    unfold all_parts, part_calls, part_schema. rewrite Hschemas. simpl.
    rewrite Hschema. simpl. set_solver.
Qed.

(** ** Routers and groups *)

(** X13. Routes registered later never change the match of a request that an
    earlier route takes: the match over two lists of routes put end to end is
    the match over the first list when there is one, and the match over the
    second list otherwise. *)
Theorem match_over_appended_routes (routes1 routes2 : list CompiledRoute)
    (validator : option Validator) (method url : string) :
  match_ (router_of (routes1 ++ routes2) validator) method url
  = match match_ (router_of routes1 validator) method url with
    | Some matched => Some matched
    | None => match_ (router_of routes2 validator) method url
    end.
Proof.
  unfold match_, router_of. simpl.
  induction routes1 as [|route rest IH]; [done|]. simpl.
  case_decide; [done|].
  by destruct (URLPattern_exec (cr_pattern route) url).
Qed.

(** X14. The verb helpers of the route factory are [route.on] at a fixed
    method, and [route.all] is [route.on] at the wildcard.  A router with the
    single route [route.on method path config] matches a request exactly when
    the method is the wildcard or that of the request and the pattern matches
    the URL; so [route.all] matches whatever the request method. *)
Theorem route_factory_methods (path : string) (config : RouteConfig) :
  (route.get path config = route.on "GET" path config
   ∧ route.head path config = route.on "HEAD" path config
   ∧ route.post path config = route.on "POST" path config
   ∧ route.put path config = route.on "PUT" path config
   ∧ route.patch path config = route.on "PATCH" path config
   ∧ route.delete path config = route.on "DELETE" path config
   ∧ route.options path config = route.on "OPTIONS" path config
   ∧ route.all path config = route.on "*" path config)
  ∧ (∀ method pattern validator request_method url,
       match_ (router_of [{| cr_handler := route.on method path config;
                             cr_pattern := pattern |}] validator)
              request_method url
       = if decide (method = "*" ∨ method = request_method)
         then match_of (route.on method path config) <$> URLPattern_exec pattern url
         else None)
  ∧ (∀ pattern validator request_method url,
       match_ (router_of [{| cr_handler := route.all path config;
                             cr_pattern := pattern |}] validator)
              request_method url
       = match_of (route.all path config) <$> URLPattern_exec pattern url).
Proof.
  split; [by split_and!|]. split.
  - intros method pattern validator request_method url.
    unfold match_, router_of. simpl.
    repeat case_decide; try naive_solver;
      by destruct (URLPattern_exec pattern url).
  - intros pattern validator request_method url.
    unfold match_, router_of. simpl.
    by destruct (URLPattern_exec pattern url).
Qed.

Lemma group_with_guards (options : GroupOptions) :
  group options
  = match guards options with
    | Some (g :: gs) => prepend_guards (g :: gs) <$> group_loop (handlers options)
    | _ => group_loop (handlers options)
    end.
Proof. unfold group. by destruct (guards options) as [[|g gs]|]. Qed.

(** X15. [group] keeps the handlers: their number, their order and, for each,
    its method, path, handler function and request schemas.  Without guards,
    or with an empty list of guards, it returns the flattened handlers
    untouched, and grouping the result again without guards changes
    nothing. *)
Theorem group_keeps_handlers (options : GroupOptions) :
  (λ h, (h_method h, h_path h, h_handler h, h_request h)) <$> group options
  = (λ h, (h_method h, h_path h, h_handler h, h_request h))
      <$> group_loop (handlers options)
  ∧ length (group options) = length (group_loop (handlers options))
  ∧ (guards options = None ∨ guards options = Some [] →
     group options = group_loop (handlers options))
  ∧ group {| handlers := HGHandler <$> group options; guards := None |}
    = group options.
Proof.
  rewrite group_with_guards. split_and!.
  - destruct (guards options) as [[|g gs]|]; try done.
    by rewrite <- list_fmap_compose.
  - destruct (guards options) as [[|g gs]|]; try done. by rewrite length_fmap.
  - by intros [-> | ->].
  - unfold group at 1. simpl. apply group_loop_handlers.
Qed.

(** X16. Nesting groups composes their guards: a group with guards [outer]
    around a group with guards [inner] gives the same handlers as one group
    with the guards [outer] followed by [inner]. *)
Theorem nested_groups_compose (items : list HandlerGroup)
    (outer inner : list GuardFn) :
  group {| handlers := [HGArray (HGHandler <$>
                                   group {| handlers := items;
                                            guards := Some inner |})];
           guards := Some outer |}
  = group {| handlers := items; guards := Some (outer ++ inner) |}.
Proof.
  rewrite !group_with_guards. cbn [handlers guards].
  rewrite group_loop_cons_array, group_loop_handlers, group_loop_nil,
    (right_id_L [] (++)).
  destruct outer as [|go outer], inner as [|gi inner]; cbn [app]; try done.
  - by rewrite (right_id_L [] (++)).
  - rewrite <- list_fmap_compose. apply list_fmap_ext. intros i h _.
    unfold prepend_guards. simpl. by rewrite <- (assoc_L (++)).
Qed.

Lemma compile_routes_fmap (f : Handler → Handler) (l : list Handler) :
  (∀ h, h_path (f h) = h_path h) →
  compile_routes (f <$> l)
  = match compile_routes l with
    | inl e => inl e
    | inr compiled => inr (route_with f <$> compiled)
    end.
Proof.
  intros Hpath. induction l as [|h rest IH]; [done|].
  rewrite fmap_cons. cbn [compile_routes].
  rewrite Hpath, IH. destruct (URLPattern_new (h_path h)); [done|].
  by destruct (compile_routes rest).
Qed.

Lemma match_routes_fmap (f : Handler → Handler) (compiled : list CompiledRoute)
    (method url : string) :
  (∀ h, h_method (f h) = h_method h) →
  match_routes (route_with f <$> compiled) method url
  = match_with f <$> match_routes compiled method url.
Proof.
  intros Hmethod. induction compiled as [|route rest IH]; [done|].
  rewrite fmap_cons. cbn [match_routes route_with cr_handler cr_pattern].
  rewrite Hmethod, IH. case_decide; [done|].
  by destruct (URLPattern_exec (cr_pattern route) url).
Qed.

(** X17. Guards do not take part in routing: the router made from a group
    matches the same requests, with the same parameters, as the router made
    from the flattened handlers; the matched handler differs only by the
    guards that the group puts in front. *)
Theorem grouping_keeps_routing (options : GroupOptions)
    (validator : option Validator) (method url : string) :
  match createRouter (group_loop (handlers options)) validator with
  | inl e => createRouter (group options) validator = inl e
  | inr flat =>
      ∃ router, createRouter (group options) validator = inr router
        ∧ match_ router method url
          = match_with (λ h, match guards options with
                             | Some (g :: gs) => prepend_guards (g :: gs) h
                             | _ => h
                             end)
              <$> match_ flat method url
  end.
Proof.
  rewrite group_with_guards. unfold createRouter, match_.
  destruct (guards options) as [[|g gs]|].
  - destruct (compile_routes _) as [e|compiled]; [done|]. eexists. split; [done|].
    simpl. by destruct (match_routes compiled method url) as [[]|].
  - rewrite compile_routes_fmap by done.
    destruct (compile_routes _) as [e|compiled]; [done|]. eexists. split; [done|].
    simpl. by apply match_routes_fmap.
  - destruct (compile_routes _) as [e|compiled]; [done|]. eexists. split; [done|].
    simpl. by destruct (match_routes compiled method url) as [[]|].
Qed.

Lemma compile_routes_fails (l : list Handler) (e : Thrown) :
  compile_routes l = inl e ↔
  ∃ before h after, l = before ++ h :: after
    ∧ Forall compiles before ∧ URLPattern_new (h_path h) = inl e.
Proof.
  induction l as [|h rest IH]; simpl.
  - split; [done|]. intros (before & h & after & Heq & _). by destruct before.
  - destruct (URLPattern_new (h_path h)) as [e'|pattern] eqn:Hnew.
    + split.
      * intros [= ->]. exists [], h, rest. by split_and!.
      * intros ([|h' before] & h0 & after & Heq & Hall & Hfail).
        -- injection Heq as <- <-. congruence.
        -- injection Heq as <- _. apply list.Forall_cons in Hall as [[p Hp] _].
           congruence.
    + destruct (compile_routes rest) as [e'|compiled].
      * split.
        -- intros [= ->]. destruct (proj1 IH eq_refl) as (before & h0 & after & -> & ? & ?).
           exists (h :: before), h0, after. split_and!; try done.
           constructor; [by exists pattern|done].
        -- intros ([|h' before] & h0 & after & Heq & Hall & Hfail).
           ++ injection Heq as <- <-. congruence.
           ++ injection Heq as <- ->. apply list.Forall_cons in Hall as [_ Hall].
              f_equal. assert (inl e' = inl (B:=list CompiledRoute) e) as [= ->]; [|done].
              apply IH. by exists before, h0, after.
      * split; [done|].
        intros ([|h' before] & h0 & after & Heq & Hall & Hfail).
        -- injection Heq as <- <-. congruence.
        -- injection Heq as <- ->. apply list.Forall_cons in Hall as [_ Hall].
           assert (inr compiled = inl (B:=list CompiledRoute) e) as [=]. apply IH.
           by exists before, h0, after.
Qed.

(** X18. [setupHttp] throws exactly when [URLPattern] rejects the path
    template of some handler, and what it throws is the error of the first
    such handler in registration order; no application is made then. *)
Theorem setupHttp_fails_on_first_bad_template (config : SetupArg) (e : Thrown) :
  setupHttp config = inl e ↔
  ∃ before h after, setup_handlers config = before ++ h :: after
    ∧ Forall compiles before ∧ URLPattern_new (h_path h) = inl e.
Proof.
  rewrite <- compile_routes_fails. unfold setupHttp, createRouter, setup_handlers.
  destruct config as [l|c]; destruct (compile_routes _); split; congruence.
Qed.

(** ** The fetch handler *)

Lemma trace_pair {A} (tr : list Event) (o : Thrown + A) : trace (tr, o) = tr.
Proof. done. Qed.

Lemma outcome_pair {A} (tr : list Event) (o : Thrown + A) : outcome (tr, o) = o.
Proof. done. Qed.

Lemma rethrown_not_nullish (c : Context) (t : Thrown) :
  is_nullish (thrown_value (rethrown c t)) = false.
Proof. unfold rethrown. by destruct (thrown_value t), (thrown_readonly t). Qed.

Lemma handle_dispatch_events router request initialLocals :
  Forall is_dispatch_event (trace (handle router request initialLocals)).
Proof.
  destruct (match_ router (req_method request) (req_url request)) as [matched|]
    eqn:Hmatch; [|rewrite handle_phases, Hmatch; constructor].
  pose proof (handle_calls router request initialLocals matched Hmatch) as Hcalls.
  simpl in Hcalls.
  assert (Hhc : Forall is_dispatch_event
                  (trace (handle_context router request initialLocals matched))).
  { apply list.Forall_forall. intros ev Hev.
    apply handle_context_events in Hev as [[-> _]|(?&?&?&->)]; done. }
  destruct (outcome (handle_context router request initialLocals matched)) as [t|c0].
  { by destruct Hcalls as (-> & _). }
  destruct Hcalls as (-> & _).
  destruct (run_guards_spec (default [] (h_guards (rm_handler matched))) c0)
    as (calls & -> & _).
  rewrite !list.Forall_app. split_and!; [done| |].
  - apply list.Forall_fmap. by apply list.Forall_forall.
  - destruct (outcome _) as [?|[?|?]]; by repeat constructor.
Qed.

Lemma handle_throws_object router request initialLocals t :
  outcome (handle router request initialLocals) = inl t →
  is_nullish (thrown_value t) = false.
Proof.
  intros Hout.
  destruct (match_ router (req_method request) (req_url request)) as [matched|]
    eqn:Hmatch; [|by rewrite handle_phases, Hmatch in Hout].
  destruct (outcome (handle_context router request initialLocals matched))
    as [t'|c0] eqn:Hhc.
  - pose proof (handle_calls router request initialLocals matched Hmatch) as Hcalls.
    simpl in Hcalls. rewrite Hhc in Hcalls. destruct Hcalls as (_ & _ & _ & Ho).
    rewrite Ho in Hout. injection Hout as <-.
    by apply handle_context_throws in Hhc as (_ & _ & ->).
  - destruct (handle_end_state _ _ _ _ _ Hmatch Hhc) as (_ & _ & Hend).
    cbv zeta in Hend.
    destruct Hend as [(call & t0 & _ & _ & _ & Ho)
                     |[(call & deny & _ & _ & _ & Ho)|(_ & _ & _ & Ho)]].
    + rewrite Ho in Hout. injection Hout as <-. apply rethrown_not_nullish.
    + congruence.
    + rewrite Ho in Hout. destruct (h_handler _ _); [|done].
      injection Hout as <-. apply rethrown_not_nullish.
Qed.

Lemma fetch_try_throws app request hook t :
  app_onRequest app = Some hook → hook request = inl t →
  fetch_try app request = ([EvOnRequest request], inl t).
Proof. intros Hhook Ht. unfold fetch_try. rewrite Hhook. simpl. by rewrite Ht. Qed.

Lemma fetch_try_returns app request locals :
  request_hook_returns app request locals →
  fetch_try app request
  = ((if app_onRequest app is Some _ then [EvOnRequest request] else [])
       ++ trace (handle (app_router app) request (default ∅ locals))
       ++ match outcome (handle (app_router app) request (default ∅ locals)),
               app_onResponse app with
          | inr rr, Some _ => [EvOnResponse (rr_context rr) (rr_response rr)]
          | _, _ => []
          end,
     match outcome (handle (app_router app) request (default ∅ locals)) with
     | inl t => inl t
     | inr rr =>
         match app_onResponse app with
         | Some hook => hook (rr_context rr) (rr_response rr)
         | None => inr (rr_response rr)
         end
     end).
Proof.
  intros Hret. rewrite (fetch_try_run _ _ _ Hret).
  destruct (handle (app_router app) request (default ∅ locals)) as [tr [t|rr]]; simpl.
  - by rewrite app_nil_r.
  - destruct (app_onResponse app) as [hook|]; simpl; by rewrite ?app_nil_r.
Qed.

Lemma request_hook_cases app request :
  (∃ hook t, app_onRequest app = Some hook ∧ hook request = inl t)
  ∨ ∃ locals, request_hook_returns app request locals.
Proof.
  unfold request_hook_returns. destruct (app_onRequest app) as [hook|]; [|by eauto].
  destruct (hook request) as [t|locals] eqn:Hhook; [left|right]; by eauto.
Qed.

(** X19. Whatever dispatch throws is an error object, never null or
    undefined, so it always reaches the error hook: when [handle] throws,
    [fetch] skips the response hook, calls the error hook once with the thrown
    value and the context attached to it (the minimal context when none is
    attached), and answers what the error hook answers. *)
Theorem dispatch_errors_reach_error_hook (app : App) (request : Request)
    (locals : option (gmap string JsVal)) (t : Thrown) :
  request_hook_returns app request locals →
  outcome (handle (app_router app) request (default ∅ locals)) = inl t →
  is_nullish (thrown_value t) = false
  ∧ response_hook_calls (trace (fetch_try app request)) = []
  ∧ fetch app request
    = (trace (fetch_try app request)
         ++ EvOnError t (error_context request t)
         :: trace (app_onError app t (error_context request t)),
       outcome (app_onError app t (error_context request t))).
Proof.
  intros Hret Hout.
  pose proof (handle_throws_object _ _ _ _ Hout) as Hnn.
  pose proof (fetch_try_returns _ _ _ Hret) as Htry. rewrite Hout in Htry.
  split_and!; [done| |].
  - rewrite Htry. unfold trace at 1. cbn [fst].
    unfold response_hook_calls. rewrite !omap_app.
    fold (response_hook_calls (trace (handle (app_router app) request (default ∅ locals)))).
    rewrite handle_no_response_hook. by destruct (app_onRequest app).
  - assert (Ho : outcome (fetch_try app request) = inl t) by by rewrite Htry.
    by rewrite fetch_run, Ho, (fetch_catch_run _ _ _ Hnn).
Qed.

(** X20. When the pre-routing hook throws, nothing of dispatch runs: no body
    read, no validation, no guard, no handler and no response hook.  The error
    hook is called right after it with the thrown value; a thrown null or
    undefined never reaches the error hook, [fetch] rejects with the
    [TypeError] of reading its [context]. *)
Theorem request_hook_failure_skips_dispatch (app : App) (request : Request)
    (hook : OnRequestHandler) (t : Thrown) :
  app_onRequest app = Some hook → hook request = inl t →
  fetch app request
  = if is_nullish (thrown_value t)
    then ([EvOnRequest request], inl engine_TypeError)
    else (EvOnRequest request
            :: EvOnError t (error_context request t)
            :: trace (app_onError app t (error_context request t)),
          outcome (app_onError app t (error_context request t))).
Proof.
  intros Hhook Ht. rewrite fetch_run, (fetch_try_throws _ _ _ _ Hhook Ht).
  unfold trace at 1, outcome at 1 2. cbn [fst snd].
  destruct (is_nullish (thrown_value t)) eqn:Hnn.
  - unfold fetch_catch. by rewrite Hnn.
  - by rewrite (fetch_catch_run _ _ _ Hnn).
Qed.

(** X21. When the response hook throws, dispatch has already returned: all
    that it called has been called, and its response is dropped.  The error
    hook is called next with the thrown value and the context attached to it,
    or else the minimal context, which is not the context that dispatch
    returned.  A thrown null or undefined makes [fetch] reject with a
    [TypeError], and the error hook is not called. *)
Theorem response_hook_failure (app : App) (request : Request)
    (hook : OnResponseHandler) (locals : option (gmap string JsVal))
    (rr : RouterResponse) (t : Thrown) :
  app_onResponse app = Some hook →
  request_hook_returns app request locals →
  outcome (handle (app_router app) request (default ∅ locals)) = inr rr →
  hook (rr_context rr) (rr_response rr) = inl t →
  fetch app request
  = ((if app_onRequest app is Some _ then [EvOnRequest request] else [])
       ++ trace (handle (app_router app) request (default ∅ locals))
       ++ EvOnResponse (rr_context rr) (rr_response rr)
       :: (if is_nullish (thrown_value t) then []
           else EvOnError t (error_context request t)
                  :: trace (app_onError app t (error_context request t))),
     if is_nullish (thrown_value t) then inl engine_TypeError
     else outcome (app_onError app t (error_context request t)))
  ∧ (thrown_context t = None → error_context request t = minimal_context request).
Proof.
  intros Hhook Hret Hout Ht.
  pose proof (fetch_try_returns _ _ _ Hret) as Htry.
  rewrite Hout, Hhook, Ht in Htry. split.
  - assert (Ho : outcome (fetch_try app request) = inl t) by by rewrite Htry.
    rewrite fetch_run, Ho, Htry, trace_pair.
    destruct (is_nullish (thrown_value t)) eqn:Hnn.
    + unfold fetch_catch. rewrite Hnn. simpl. by rewrite app_nil_r.
    + rewrite (fetch_catch_run _ _ _ Hnn), trace_pair, outcome_pair.
      by rewrite <- !(assoc_L (++)).
  - unfold error_context. by intros ->.
Qed.

Lemma setupHttp_error_hook_trace (config : SetupArg) (app : App) t c :
  setupHttp config = inr app →
  trace (app_onError app t c)
  = (if default_error_hook config then [EvConsoleError t] else []).
Proof.
  intros Happ. destruct (setupHttp_app _ _ Happ) as (_ & -> & _).
  destruct config as [l|cfg]; [done|]. simpl.
  by destruct (config_onError cfg).
Qed.

(** X22. The events of one request come in a fixed order, for every
    application that [setupHttp] makes: the pre-routing hook when there is one,
    then the events of dispatch (body read, validations, guards, handler), then
    at most one call of the response hook, then at most one call of the error
    hook.  The default error hook logs the error to the console, once, right
    after it is called; an error hook of the configuration leaves no event of
    its own. *)
Theorem hooks_run_in_order (config : SetupArg) (app : App) (request : Request) :
  setupHttp config = inr app →
  ∃ dispatch responses errors,
    trace (fetch app request)
    = (if app_onRequest app is Some _ then [EvOnRequest request] else [])
        ++ dispatch ++ responses ++ errors
    ∧ Forall is_dispatch_event dispatch
    ∧ (responses = []
       ∨ ∃ c r, responses = [EvOnResponse c r] ∧ is_Some (app_onResponse app))
    ∧ (errors = []
       ∨ ∃ t c, errors = if default_error_hook config
                         then [EvOnError t c; EvConsoleError t]
                         else [EvOnError t c]).
Proof.
  intros Happ.
  assert (Hcatch : ∀ t,
            trace (fetch_catch app request t) = []
            ∨ ∃ t' c, trace (fetch_catch app request t)
                      = if default_error_hook config
                        then [EvOnError t' c; EvConsoleError t']
                        else [EvOnError t' c]).
  { intros t. destruct (is_nullish (thrown_value t)) eqn:Hnn; [left|right].
    - unfold fetch_catch. by rewrite Hnn.
    - rewrite (fetch_catch_run _ _ _ Hnn), !trace_pair.
      exists t, (default (minimal_context request) (thrown_context t)).
      rewrite (setupHttp_error_hook_trace config app t _ Happ).
      by destruct (default_error_hook config). }
  rewrite fetch_run, trace_pair.
  destruct (request_hook_cases app request) as [(hook & t & Hhook & Ht)|[locals Hret]].
  - rewrite (fetch_try_throws _ _ _ _ Hhook Ht), Hhook, trace_pair, outcome_pair.
    exists [], [], (trace (fetch_catch app request t)).
    split_and!; [done|constructor|by left|apply Hcatch].
  - pose proof (fetch_try_returns _ _ _ Hret) as Htry.
    pose proof (handle_dispatch_events (app_router app) request (default ∅ locals))
      as Hdispatch.
    destruct (outcome (handle (app_router app) request (default ∅ locals)))
      as [t|rr] eqn:Hout.
    + assert (Ho : outcome (fetch_try app request) = inl t) by by rewrite Htry.
      rewrite Ho, Htry, trace_pair.
      exists (trace (handle (app_router app) request (default ∅ locals))), [],
        (trace (fetch_catch app request t)).
      split_and!; [by rewrite <- !(assoc_L (++))|done|by left|apply Hcatch].
    + destruct (app_onResponse app) as [hook|] eqn:Hhook.
      * assert (Ho : outcome (fetch_try app request)
                     = hook (rr_context rr) (rr_response rr)) by by rewrite Htry.
        rewrite Ho, Htry, trace_pair.
        exists (trace (handle (app_router app) request (default ∅ locals))),
          [EvOnResponse (rr_context rr) (rr_response rr)],
          (match hook (rr_context rr) (rr_response rr) with
           | inl t => trace (fetch_catch app request t)
           | inr _ => []
           end).
        split_and!; [by rewrite <- !(assoc_L (++))|done|right; by eauto|].
        destruct (hook _ _); [apply Hcatch|by left].
      * assert (Ho : outcome (fetch_try app request) = inr (rr_response rr))
          by by rewrite Htry.
        rewrite Ho, Htry, trace_pair.
        exists (trace (handle (app_router app) request (default ∅ locals))), [], [].
        split_and!; [by rewrite <- !(assoc_L (++))|done|by left|by left].
Qed.

(** X23. An application set up without hooks always answers: [fetch] never
    rejects.  The answer is the response of dispatch when dispatch returns,
    and the fixed 500 response, after one call of the default error hook,
    when dispatch throws. *)
Theorem fetch_always_answers_without_hooks (config : SetupArg) (app : App)
    (request : Request) :
  setupHttp config = inr app → no_hooks config →
  fetch app request
  = match outcome (handle (app_router app) request ∅) with
    | inr rr => (trace (handle (app_router app) request ∅), inr (rr_response rr))
    | inl t =>
        (trace (handle (app_router app) request ∅)
           ++ [EvOnError t (error_context request t); EvConsoleError t],
         inr internal_server_error)
    end.
Proof.
  intros Happ Hno.
  destruct (setupHttp_app _ _ Happ) as (_ & HonError & HonRequest & HonResponse).
  assert (app_onError app = defaultOnError ∧ app_onRequest app = None
          ∧ app_onResponse app = None) as (He & Hq & Hr).
  { destruct config as [l|cfg]; [done|]. destruct Hno as (H1 & H2 & H3).
    by rewrite HonError, HonRequest, HonResponse, H1, H2, H3. }
  assert (Hret : request_hook_returns app request (Some ∅)).
  { unfold request_hook_returns. by rewrite Hq. }
  pose proof (fetch_try_returns _ _ _ Hret) as Htry. rewrite Hq, Hr in Htry.
  simpl in Htry.
  destruct (outcome (handle (app_router app) request ∅)) as [t|rr] eqn:Hout.
  - pose proof (handle_throws_object _ _ _ _ Hout) as Hnn.
    assert (Ho : outcome (fetch_try app request) = inl t) by by rewrite Htry.
    rewrite fetch_run, Ho, (fetch_catch_run _ _ _ Hnn), He, Htry, trace_pair.
    by rewrite app_nil_r.
  - assert (Ho : outcome (fetch_try app request) = inr (rr_response rr))
      by by rewrite Htry.
    rewrite fetch_run, Ho, Htry, trace_pair.
    by rewrite !app_nil_r.
Qed.

(** X24. What the pre-routing hook returns is what dispatch starts from.  Once
    validation has returned, the first guard of the matched route is called
    with exactly the locals of the hook (empty when the hook returns nothing,
    or when there is no hook), a route without guards has its handler called
    with them, and when all the guards allow the handler is called with those
    locals and the patches of the guards. *)
Theorem request_hook_locals_seed_dispatch (app : App) (request : Request)
    (locals : option (gmap string JsVal)) (matched : RouteMatch) :
  request_hook_returns app request locals →
  match_ (app_router app) (req_method request) (req_url request) = Some matched →
  is_Some (router_validator (app_router app)) ∨ h_request (rm_handler matched) = None →
  let tr := trace (fetch_try app request) in
  let h := h_handler (rm_handler matched) in
  match effective_guards (rm_handler matched) with
  | g :: _ =>
      ∃ c, guard_calls tr !! 0%nat = Some (g, c) ∧ ctx_locals c = default ∅ locals
  | [] => ∃ c, handler_calls tr = [(h, c)] ∧ ctx_locals c = default ∅ locals
  end
  ∧ (Forall allows (guard_calls tr) →
     (guard_calls tr).*1 = effective_guards (rm_handler matched)
     ∧ ∃ c, handler_calls tr = [(h, c)]
         ∧ ctx_locals c = merged_locals (default ∅ locals) (guard_calls tr)).
Proof.
  intros Hret Hmatch Hok tr h.
  assert (Hg : guard_calls tr
               = guard_calls (trace (handle (app_router app) request (default ∅ locals)))
             ∧ handler_calls tr
               = handler_calls (trace (handle (app_router app) request
                                         (default ∅ locals)))).
  { unfold tr. rewrite (fetch_try_returns _ _ _ Hret), !trace_pair.
    unfold guard_calls, handler_calls. rewrite !omap_app.
    destruct (app_onRequest app), (outcome (handle _ _ _)) as [?|?],
      (app_onResponse app); simpl; by rewrite ?app_nil_r. }
  destruct Hg as [-> ->]. clear tr.
  destruct (handle_context_returns (app_router app) request (default ∅ locals)
              matched Hok) as [c0 Hhc].
  destruct (handle_end_state _ _ _ _ _ Hmatch Hhc) as (Hctx & _ & Hend).
  cbv zeta in Hctx, Hend. fold h in Hend.
  assert (Hall : Forall allows
                   (guard_calls (trace (handle (app_router app) request
                                          (default ∅ locals)))) →
            (guard_calls (trace (handle (app_router app) request
                                   (default ∅ locals)))).*1
            = effective_guards (rm_handler matched)
            ∧ handler_calls (trace (handle (app_router app) request
                                      (default ∅ locals)))
              = [(h, with_locals c0
                       (merged_locals (default ∅ locals)
                          (guard_calls (trace (handle (app_router app) request
                                                 (default ∅ locals))))))]).
  { intros Hall.
    assert (Hlast : ∀ call,
              list.last (guard_calls (trace (handle (app_router app) request
                                               (default ∅ locals)))) = Some call →
              allows call).
    { intros call Hl. rewrite last_lookup in Hl.
      exact (Forall_lookup_1 _ _ _ _ Hall Hl). }
    destruct Hend as [(call & t & Hl & Hthrow & _)
                     |[(call & deny & Hl & Hdeny & _)|(Heq & _ & Hh & _)]].
    - destruct (Hlast call Hl) as [l Hal]. unfold GuardFn in *. congruence.
    - destruct (Hlast call Hl) as [l Hal]. unfold GuardFn in *. congruence.
    - done. }
  split.
  - destruct (effective_guards (rm_handler matched)) as [|g chain] eqn:Hchain.
    + assert (Hnil : guard_calls (trace (handle (app_router app) request
                                           (default ∅ locals))) = []).
      { pose proof (handle_calls (app_router app) request (default ∅ locals)
                      matched Hmatch) as Hcalls.
        simpl in Hcalls. rewrite Hhc in Hcalls. destruct Hcalls as (_ & Hgc & _).
        unfold effective_guards in Hchain. rewrite Hchain in Hgc.
        by rewrite Hgc. }
      rewrite Hnil in Hall. destruct (Hall ltac:(constructor)) as [_ Hh].
      rewrite Hh. eexists. split; [done|]. simpl.
      by rewrite merged_locals_nil.
    + destruct (handle_guard_reached _ _ _ _ _ 0%nat g Hmatch Hhc) as [c Hc].
      { by rewrite Hchain. }
      { intros j call Hj. lia. }
      exists c. split; [done|]. pose proof (Hctx _ _ Hc) as Hc'. simpl in Hc'.
      rewrite Hc'. simpl. by rewrite merged_locals_nil.
  - intros Hallows. destruct (Hall Hallows) as [Heq Hh].
    split; [done|]. rewrite Hh. eexists. split; [done|]. done.
Qed.

End FurtherProperties.

(** * The pipeline on the sample applications *)

Example parseQuery_repeated_key :
  @parseQuery sample_runtime "http://localhost/search?tag=a&tag=b&q=x"
  = {[ "tag" := QArray ["a"; "b"]; "q" := QString "x" ]}.
Proof. by vm_compute. Qed.

Example handler_sees_last_role :
  match outcome (@handle sample_runtime (sample_router None)
                   (get "http://localhost/health") ∅) with
  | inr rr =>
      rr_response rr = ok_response "admin"
      ∧ ctx_locals (rr_context rr) !! "user" = Some (JStr "alice")
      ∧ ctx_locals (rr_context rr) !! "role" = Some (JStr "admin")
  | inl _ => False
  end.
Proof. by vm_compute. Qed.

Example group_guard_runs_first_then_denial :
  (guard_calls (trace (@handle sample_runtime (sample_router None)
                         (get "http://localhost/admin") ∅))).*1
  = [guard_user; guard_deny]
  ∧ handler_calls (trace (@handle sample_runtime (sample_router None)
                            (get "http://localhost/admin") ∅)) = [].
Proof. by vm_compute. Qed.

Example invalid_json_is_one_issue :
  match outcome (@handle sample_runtime (sample_router (Some sample_validator))
                   (post "http://localhost/data" "not json{") ∅) with
  | inr rr =>
      raw_body (ctx_raw (rr_context rr)) = JUndefined
      ∧ state_failed (ctx_input (rr_context rr)) = [PartBody]
      ∧ state_issues (ctx_input (rr_context rr)) = [invalid_json_issue]
  | inl _ => False
  end.
Proof. by vm_compute. Qed.

Example empty_body_is_validated_as_undefined :
  trace (@handle sample_runtime (sample_router (Some sample_validator))
           (post "http://localhost/data" EmptyString) ∅)
  = [EvReadBody (post "http://localhost/data" EmptyString);
     EvValidate object_schema JUndefined PartBody;
     EvHandler role_handler
       {| ctx_request := post "http://localhost/data" EmptyString;
          ctx_raw := {| raw_params := ∅; raw_query := ∅; raw_body := JUndefined |};
          ctx_input :=
            InputErr [PartBody]
              [{| issue_part := PartBody; issue_path := [];
                  issue_message := "Validation failed"; issue_code := Some "custom" |}]
              {| received_params := JObj ∅; received_query := JObj ∅;
                 received_body := JUndefined |}
              (Some {| errors_params := None; errors_query := None;
                       errors_body := Some (JStr "not an object") |});
          ctx_locals := ∅ |}].
Proof. by vm_compute. Qed.

Lemma locals_accumulate_witness :
  @match_ sample_runtime (sample_router None) "GET" "http://localhost/health"
  = Some (matched_route health_route)
  ∧ (guard_calls (trace (@handle sample_runtime (sample_router None)
                           (get "http://localhost/health") ∅))).*1
    = [guard_user; guard_plain; guard_admin]
  ∧ ∃ c,
      handler_calls (trace (@handle sample_runtime (sample_router None)
                              (get "http://localhost/health") ∅))
      = [(role_handler, c)]
      ∧ ctx_locals c !! "user" = Some (JStr "alice")
      ∧ ctx_locals c !! "role" = Some (JStr "admin").
Proof.
  split; [reflexivity|].
  assert (Hallow :
    Forall allows
      (guard_calls (trace (@handle sample_runtime (sample_router None)
                             (get "http://localhost/health") ∅)))).
  { vm_compute. repeat constructor; by eexists. }
  destruct (@locals_accumulate sample_runtime (sample_router None)
              (get "http://localhost/health") ∅ (matched_route health_route) eq_refl)
    as (_ & _ & _ & Hreached).
  destruct (Hreached (or_intror eq_refl)) as [_ Hhandler].
  destruct (Hhandler Hallow) as (Hchain & c & Hcall & Hlocals & _).
  split; [exact Hchain|]. exists c. split; [exact Hcall|].
  rewrite Hlocals. split; reflexivity.
Defined.

Lemma guards_run_in_order_until_denial_witness :
  @match_ sample_runtime (sample_router None) "GET" "http://localhost/admin"
  = head (matched_route <$> admin_group)
  ∧ (guard_calls (trace (@handle sample_runtime (sample_router None)
                           (get "http://localhost/admin") ∅))).*1
    `prefix_of` [guard_user; guard_deny; guard_admin].
Proof.
  split; [reflexivity|].
  apply (@guards_run_in_order_until_denial sample_runtime (sample_router None)
           (get "http://localhost/admin") ∅
           (matched_route
              {| h_method := "GET"; h_path := "/admin"; h_handler := role_handler;
                 h_guards := Some [guard_user; guard_deny; guard_admin];
                 h_request := None |})).
  reflexivity.
Defined.

Lemma no_body_schema_no_read_witness :
  @match_ sample_runtime (sample_router None) "POST" "http://localhost/upload"
  = Some (matched_route upload_route)
  ∧ h_request upload_route ≫= schema_body = None
  ∧ body_reads (trace (@handle sample_runtime (sample_router None)
                         (post "http://localhost/upload" "{}") ∅)) = [].
Proof.
  split; [reflexivity|]. split; [reflexivity|].
  apply (@no_body_schema_no_read sample_runtime (sample_router None)
           (post "http://localhost/upload" "{}") ∅ (matched_route upload_route));
    reflexivity.
Defined.

Lemma missing_validator_reaches_error_boundary_witness :
  router_validator (app_router sample_app) = None
  ∧ @match_ sample_runtime (app_router sample_app) "POST" "http://localhost/data"
    = Some (matched_route data_route)
  ∧ outcome (@fetch sample_runtime sample_app (post "http://localhost/data" "{}"))
    = outcome (defaultOnError missing_validator_error
                 (minimal_context (post "http://localhost/data" "{}"))).
Proof.
  split; [reflexivity|]. split; [reflexivity|].
  apply (@missing_validator_reaches_error_boundary sample_runtime sample_app
           (post "http://localhost/data" "{}") (Some ∅) (matched_route data_route)
           body_schemas); reflexivity.
Defined.

(** C8, as the specification states it, fails: no route matches, and yet the
    response hook is called and the response is the hook's, not the 404. *)
Lemma response_hook_runs_on_404_counterexample :
  @match_ sample_runtime (app_router hooked_app) "GET" "http://localhost/missing" = None
  ∧ response_hook_calls
      (trace (@fetch sample_runtime hooked_app (get "http://localhost/missing")))
    = [(minimal_context (get "http://localhost/missing"), not_found_response)]
  ∧ outcome (@fetch sample_runtime hooked_app (get "http://localhost/missing"))
    = inr (ok_response "hooked")
  ∧ ok_response "hooked" ≠ not_found_response.
Proof. split_and!; [reflexivity|reflexivity|reflexivity|discriminate]. Qed.

Lemma response_hook_runs_whenever_dispatch_returns_witness :
  app_onResponse hooked_app = Some stamp_hook
  ∧ outcome (@handle sample_runtime (app_router hooked_app)
               (get "http://localhost/missing") ∅)
    = inr {| rr_response := not_found_response;
             rr_context := minimal_context (get "http://localhost/missing") |}
  ∧ outcome (@fetch_try sample_runtime hooked_app (get "http://localhost/missing"))
    = stamp_hook (minimal_context (get "http://localhost/missing")) not_found_response.
Proof.
  split; [reflexivity|]. split; [reflexivity|].
  apply (@response_hook_runs_whenever_dispatch_returns sample_runtime hooked_app
           (get "http://localhost/missing") stamp_hook (Some ∅)
           {| rr_response := not_found_response;
              rr_context := minimal_context (get "http://localhost/missing") |});
    reflexivity.
Defined.

Example setupHttp_sample_handlers :
  @setupHttp sample_runtime (HandlersOnly sample_handlers) = inr sample_app.
Proof. reflexivity. Qed.

Example match_extracts_params :
  @match_ sample_runtime order_router "GET" "http://localhost/users/123"
  = Some {| rm_handler := users_route; rm_params := {[ "id" := Some "123" ]} |}.
Proof. reflexivity. Qed.

Example match_prefers_registration_order :
  @match_ sample_runtime order_router "GET" "http://localhost/health"
  = Some (matched_route health_route)
  ∧ @match_ sample_runtime order_router "DELETE" "http://localhost/health"
    = Some (matched_route wild_route)
  ∧ @match_ sample_runtime order_router "DELETE" "http://localhost/users/123" = None.
Proof. by split_and!. Qed.

Example all_parts_fail_in_order :
  outcome (@validateInputs (Some sample_validator) (Some strict_schemas) empty_raw
             (Some (new_Error SyntaxError "Unexpected token")))
  = inr (InputErr [PartParams; PartQuery; PartBody]
           [sample_issue PartParams; sample_issue PartQuery; invalid_json_issue]
           {| received_params := JObj ∅; received_query := JObj ∅;
              received_body := JUndefined |}
           (Some {| errors_params := Some (JStr "rejected");
                    errors_query := Some (JStr "rejected");
                    errors_body := Some (JError (new_Error SyntaxError
                                                   "Unexpected token")) |})).
Proof. reflexivity. Qed.

Example unreadable_body_is_invalid_json :
  match outcome (@handle sample_runtime (sample_router (Some sample_validator))
                   (unreadable_post "http://localhost/data") ∅) with
  | inr rr =>
      rr_response rr = ok_response "none"
      ∧ state_issues (ctx_input (rr_context rr)) = [invalid_json_issue]
  | inl _ => False
  end.
Proof. by vm_compute. Qed.

Example error_boundary_sees_ok_state :
  @fetch sample_runtime failing_app (get "http://localhost/health")
  = ([EvOnRequest (get "http://localhost/health");
      EvOnError (thrown_error (new_Error OtherError "hook failed"))
        (minimal_context (get "http://localhost/health"))],
     inr (ok_response "ok=true")).
Proof. reflexivity. Qed.

Lemma validateInputs_aggregates_witness :
  trace (@validateInputs (Some sample_validator) (Some strict_schemas) empty_raw
           (Some (new_Error SyntaxError "Unexpected token")))
  = [EvValidate reject_schema (JObj ∅) PartParams;
     EvValidate reject_schema (JObj ∅) PartQuery].
Proof.
  exact (proj1 (validateInputs_aggregates sample_validator (Some strict_schemas)
                  empty_raw (Some (new_Error SyntaxError "Unexpected token")))).
Defined.



Lemma synthesized_contexts_report_success_witness :
  @match_ sample_runtime (app_router hooked_app) "GET" "http://localhost/missing" = None
  ∧ @handle sample_runtime (app_router hooked_app) (get "http://localhost/missing")
      {[ "requestId" := JStr "req-123" ]}
    = ([], inr {| rr_response := not_found_response;
                  rr_context := minimal_context (get "http://localhost/missing") |}).
Proof.
  split; [reflexivity|].
  apply (proj1 (proj2 (@synthesized_contexts_report_success sample_runtime
                         (get "http://localhost/missing")))).
  reflexivity.
Defined.


(** ** Further properties on the sample applications *)

Example query_entries_of_sample_url :
  @parseQuery sample_runtime "http://localhost/search?tag=a&tag=b&q=x" !! "tag"
  = Some (QArray ["a"; "b"])
  ∧ @parseQuery sample_runtime "http://localhost/search?tag=a&tag=b&q=x" !! "q"
    = Some (QString "x")
  ∧ @parseQuery sample_runtime "http://localhost/search?tag=a&tag=b&q=x" !! "page"
    = None.
Proof. by vm_compute. Qed.

Lemma parseQuery_lookup_witness :
  @keeps_prototype sample_runtime
    (@URL_searchParams sample_runtime "http://localhost/search?toString=1&q=x")
  ∧ @parseQuery sample_runtime "http://localhost/search?toString=1&q=x" !! "toString"
    = Some (QInherited (JBuiltin "Object.prototype.toString") ["1"])
  ∧ @parseQuery accessor_runtime
      "http://localhost/search?__proto__=1&length=2&__proto__=3" !! "__proto__"
    = Some (QInherited (JBuiltin "Object.prototype") ["1"; "3"]).
Proof.
  split; [by left|]. split.
  - apply (proj1 (@parseQuery_lookup sample_runtime
                    "http://localhost/search?toString=1&q=x" "toString")).
    by left.
  - apply (proj2 (@parseQuery_lookup accessor_runtime
                    "http://localhost/search?__proto__=1&length=2&__proto__=3"
                    "__proto__")).
    reflexivity.
Defined.

Example replaced_prototype_is_read :
  @parseQuery accessor_runtime "http://localhost/search?__proto__=1&length=2&__proto__=3"
  = {[ "__proto__" := QInherited (JBuiltin "Object.prototype") ["1"; "3"];
       "length" := QInherited (JNum 2) ["2"] ]}.
Proof. by vm_compute. Qed.

Lemma validateInputs_ignores_parse_error_witness :
  part_schema (Some params_schemas) PartBody = None
  ∧ validateInputs (Some sample_validator) (Some params_schemas) empty_raw
      (Some (new_Error SyntaxError "Unexpected token"))
    = validateInputs (Some sample_validator) (Some params_schemas) empty_raw None.
Proof.
  split; [reflexivity|].
  apply (validateInputs_ignores_parse_error (Some sample_validator)
           (Some params_schemas) empty_raw (new_Error SyntaxError "Unexpected token")).
  reflexivity.
Defined.

Lemma sample_validator_tags_issues : tags_issues sample_validator.
Proof.
  intros schema input part issues err. simpl.
  destruct (safeParse schema input); [done|].
  intros [= <- _]. by repeat constructor.
Defined.

Lemma issues_belong_to_failed_parts_witness :
  tags_issues sample_validator
  ∧ match outcome (validateInputs (Some sample_validator) (Some strict_schemas)
                     empty_raw (Some (new_Error SyntaxError "Unexpected token"))) with
    | inr input =>
        Forall (λ issue, issue_part issue ∈ state_failed input) (state_issues input)
    | inl _ => False
    end.
Proof.
  split; [exact sample_validator_tags_issues|].
  apply (issues_belong_to_failed_parts sample_validator (Some strict_schemas)
           empty_raw (Some (new_Error SyntaxError "Unexpected token"))).
  exact sample_validator_tags_issues.
Defined.

Lemma handle_phase_order_witness :
  @match_ sample_runtime (sample_router (Some sample_validator)) "POST"
    "http://localhost/data" = Some (matched_route data_route)
  ∧ ∃ validates,
      trace (@handle sample_runtime (sample_router (Some sample_validator))
               (post "http://localhost/data" "{}") ∅)
      = (EvReadBody <$> [post "http://localhost/data" "{}"]) ++ validates
          ++ [EvHandler role_handler
                {| ctx_request := post "http://localhost/data" "{}";
                   ctx_raw := {| raw_params := ∅; raw_query := ∅;
                                 raw_body := JObj ∅ |};
                   ctx_input := InputOk (JObj ∅) (JObj ∅) (JObj ∅);
                   ctx_locals := ∅ |}]
      ∧ Forall is_validate validates.
Proof.
  split; [reflexivity|].
  destruct (@handle_phase_order sample_runtime (sample_router (Some sample_validator))
              (post "http://localhost/data" "{}") ∅ (matched_route data_route)
              eq_refl) as (validates & Htrace & Hvalidates & _).
  exists validates. split; [exact Htrace|exact Hvalidates].
Defined.

Lemma guard_throw_carries_entering_context_witness :
  @match_ sample_runtime crash_router "GET" "http://localhost/crash"
  = Some (matched_route crash_route)
  ∧ (guard_calls (trace (@handle sample_runtime crash_router
                           (get "http://localhost/crash") ∅))).*1
    = [guard_user; guard_throw]
  ∧ handler_calls (trace (@handle sample_runtime crash_router
                            (get "http://localhost/crash") ∅)) = []
  ∧ outcome (@handle sample_runtime crash_router (get "http://localhost/crash") ∅)
    = inl {| thrown_value := JError (new_Error OtherError "guard failed");
             thrown_context :=
               Some {| ctx_request := get "http://localhost/crash";
                       ctx_raw := {| raw_params := ∅; raw_query := ∅;
                                     raw_body := JUndefined |};
                       ctx_input := InputOk (JObj ∅) (JObj ∅) JUndefined;
                       ctx_locals := {[ "user" := JStr "alice";
                                        "role" := JStr "guest" ]} |};
             thrown_readonly := false |}.
Proof.
  split; [reflexivity|]. split; [reflexivity|].
  destruct (@guard_throw_carries_entering_context sample_runtime crash_router
              (get "http://localhost/crash") ∅ (matched_route crash_route) eq_refl
              1%nat
              (guard_throw,
               {| ctx_request := get "http://localhost/crash";
                  ctx_raw := {| raw_params := ∅; raw_query := ∅;
                                raw_body := JUndefined |};
                  ctx_input := InputOk (JObj ∅) (JObj ∅) JUndefined;
                  ctx_locals := {[ "user" := JStr "alice"; "role" := JStr "guest" ]} |})
              (thrown_error (new_Error OtherError "guard failed"))
              eq_refl eq_refl) as (_ & Hhandler & _ & Houtcome & _).
  split; [exact Hhandler|exact Houtcome].
Defined.

Example frozen_error_loses_context :
  outcome (@handle sample_runtime frozen_router (get "http://localhost/frozen") ∅)
  = inl engine_TypeError
  ∧ outcome (@fetch sample_runtime
               (@Build_App sample_runtime frozen_router
                  (λ e c, run (report_hook e c)) None None)
               (get "http://localhost/frozen"))
    = inr (ok_response "ok=true").
Proof. by vm_compute. Qed.

Lemma handler_runs_after_all_guards_witness :
  @match_ sample_runtime (sample_router None) "GET" "http://localhost/health"
  = Some (matched_route health_route)
  ∧ (guard_calls (trace (@handle sample_runtime (sample_router None)
                           (get "http://localhost/health") ∅))).*1
    = [guard_user; guard_plain; guard_admin].
Proof.
  split; [reflexivity|].
  apply (@handler_runs_after_all_guards sample_runtime (sample_router None)
           (get "http://localhost/health") ∅ (matched_route health_route) eq_refl
           (or_intror eq_refl)).
  vm_compute. repeat constructor; by eexists.
Defined.

Lemma responses_come_from_guard_or_handler_witness :
  outcome (@handle sample_runtime (sample_router None) (get "http://localhost/health") ∅)
  = inr {| rr_response := ok_response "admin";
           rr_context :=
             {| ctx_request := get "http://localhost/health";
                ctx_raw := {| raw_params := ∅; raw_query := ∅;
                              raw_body := JUndefined |};
                ctx_input := InputOk (JObj ∅) (JObj ∅) JUndefined;
                ctx_locals := {[ "user" := JStr "alice"; "role" := JStr "admin" ]} |} |}
  ∧ ((∃ call,
        list.last (guard_calls (trace (@handle sample_runtime (sample_router None)
                                         (get "http://localhost/health") ∅)))
        = Some call
        ∧ call.1 call.2 = inr (Deny (ok_response "admin")))
     ∨ role_handler
         {| ctx_request := get "http://localhost/health";
            ctx_raw := {| raw_params := ∅; raw_query := ∅; raw_body := JUndefined |};
            ctx_input := InputOk (JObj ∅) (JObj ∅) JUndefined;
            ctx_locals := {[ "user" := JStr "alice"; "role" := JStr "admin" ]} |}
       = inr (ok_response "admin")).
Proof.
  assert (Hout :
    outcome (@handle sample_runtime (sample_router None)
               (get "http://localhost/health") ∅)
    = inr {| rr_response := ok_response "admin";
             rr_context :=
               {| ctx_request := get "http://localhost/health";
                  ctx_raw := {| raw_params := ∅; raw_query := ∅;
                                raw_body := JUndefined |};
                  ctx_input := InputOk (JObj ∅) (JObj ∅) JUndefined;
                  ctx_locals := {[ "user" := JStr "alice";
                                   "role" := JStr "admin" ]} |} |})
    by reflexivity.
  split; [exact Hout|].
  destruct (@responses_come_from_guard_or_handler sample_runtime (sample_router None)
              (get "http://localhost/health") ∅ (matched_route health_route)
              {| rr_response := ok_response "admin";
                 rr_context :=
                   {| ctx_request := get "http://localhost/health";
                      ctx_raw := {| raw_params := ∅; raw_query := ∅;
                                    raw_body := JUndefined |};
                      ctx_input := InputOk (JObj ∅) (JObj ∅) JUndefined;
                      ctx_locals := {[ "user" := JStr "alice";
                                       "role" := JStr "admin" ]} |} |}
              eq_refl Hout) as [(call & Hlast & Hdeny & _)|[_ Hhandler]].
  - left. exists call. split; [exact Hlast|exact Hdeny].
  - right. exact Hhandler.
Defined.

Lemma raw_values_are_invariant_witness :
  @match_ sample_runtime order_router "GET" "http://localhost/users/123"
  = Some {| rm_handler := users_route; rm_params := {[ "id" := Some "123" ]} |}
  ∧ ∀ c, c ∈ shown_contexts (@handle sample_runtime order_router
                               (get "http://localhost/users/123") ∅) →
      ctx_request c = get "http://localhost/users/123"
      ∧ raw_params (ctx_raw c) = {[ "id" := Some "123" ]}
      ∧ raw_query (ctx_raw c)
        = @parseQuery sample_runtime "http://localhost/users/123".
Proof.
  split; [reflexivity|].
  destruct (@raw_values_are_invariant sample_runtime order_router
              (get "http://localhost/users/123") ∅
              {| rm_handler := users_route; rm_params := {[ "id" := Some "123" ]} |}
              eq_refl) as [Hshown _].
  exact Hshown.
Defined.

Lemma route_without_schemas_witness :
  @match_ sample_runtime (sample_router None) "POST" "http://localhost/upload"
  = Some (matched_route upload_route)
  ∧ h_request upload_route = None
  ∧ Forall (λ ev, ¬ is_validate ev)
      (trace (@handle sample_runtime (sample_router None)
                (post "http://localhost/upload" "{}") ∅)).
Proof.
  split; [reflexivity|]. split; [reflexivity|].
  destruct (@route_without_schemas sample_runtime (sample_router None)
              (post "http://localhost/upload" "{}") ∅ (matched_route upload_route)
              eq_refl eq_refl) as [Hquiet _].
  exact Hquiet.
Defined.

Lemma parsed_body_is_stored_witness :
  @match_ sample_runtime (sample_router (Some sample_validator)) "POST"
    "http://localhost/data" = Some (matched_route data_route)
  ∧ @JSON_parse sample_runtime "null" = inr JNull
  ∧ ∀ c, c ∈ shown_contexts (@handle sample_runtime
                               (sample_router (Some sample_validator))
                               (post "http://localhost/data" "null") ∅) →
      raw_body (ctx_raw c) = JNull.
Proof.
  split; [reflexivity|]. split; [reflexivity|].
  assert (Htext : "null" ≠ EmptyString) by discriminate.
  destruct (@parsed_body_is_stored sample_runtime
              (sample_router (Some sample_validator))
              (post "http://localhost/data" "null") ∅ (matched_route data_route)
              body_schemas object_schema "null" JNull
              eq_refl eq_refl eq_refl eq_refl Htext eq_refl) as [Hstored _].
  exact Hstored.
Defined.

Lemma group_keeps_handlers_witness :
  guards {| handlers := [HGArray [HGHandler health_route]; HGHandler upload_route];
            guards := Some [] |} = Some []
  ∧ group {| handlers := [HGArray [HGHandler health_route]; HGHandler upload_route];
             guards := Some [] |}
    = [health_route; upload_route].
Proof.
  split; [reflexivity|].
  apply (proj1 (proj2 (proj2 (group_keeps_handlers
           {| handlers := [HGArray [HGHandler health_route]; HGHandler upload_route];
              guards := Some [] |})))).
  right. reflexivity.
Defined.

Lemma setupHttp_fails_on_first_bad_template_witness :
  @setupHttp strict_runtime (HandlersOnly [health_route; bad_route; upload_route])
  = inl (thrown_error (new_Error TypeError "Invalid pattern")).
Proof.
  apply (proj2 (@setupHttp_fails_on_first_bad_template strict_runtime
                  (HandlersOnly [health_route; bad_route; upload_route])
                  (thrown_error (new_Error TypeError "Invalid pattern")))).
  exists [health_route], bad_route, [upload_route].
  split; [reflexivity|]. split; [|reflexivity].
  repeat constructor. by exists "/health".
Defined.

Lemma dispatch_errors_reach_error_hook_witness :
  outcome (@handle sample_runtime (app_router crash_app)
             (get "http://localhost/crash") ∅)
  = inl {| thrown_value := JError (new_Error OtherError "guard failed");
           thrown_context :=
             Some {| ctx_request := get "http://localhost/crash";
                     ctx_raw := {| raw_params := ∅; raw_query := ∅;
                                   raw_body := JUndefined |};
                     ctx_input := InputOk (JObj ∅) (JObj ∅) JUndefined;
                     ctx_locals := {[ "user" := JStr "alice";
                                      "role" := JStr "guest" ]} |};
           thrown_readonly := false |}
  ∧ response_hook_calls
      (trace (@fetch_try sample_runtime crash_app (get "http://localhost/crash"))) = [].
Proof.
  split; [reflexivity|].
  apply (@dispatch_errors_reach_error_hook sample_runtime crash_app
           (get "http://localhost/crash") (Some ∅)
           {| thrown_value := JError (new_Error OtherError "guard failed");
              thrown_context :=
                Some {| ctx_request := get "http://localhost/crash";
                        ctx_raw := {| raw_params := ∅; raw_query := ∅;
                                      raw_body := JUndefined |};
                        ctx_input := InputOk (JObj ∅) (JObj ∅) JUndefined;
                        ctx_locals := {[ "user" := JStr "alice";
                                         "role" := JStr "guest" ]} |};
              thrown_readonly := false |});
    reflexivity.
Defined.

Lemma request_hook_failure_skips_dispatch_witness :
  app_onRequest failing_app = Some failing_hook
  ∧ @fetch sample_runtime failing_app (get "http://localhost/health")
    = ([EvOnRequest (get "http://localhost/health");
        EvOnError (thrown_error (new_Error OtherError "hook failed"))
          (minimal_context (get "http://localhost/health"))],
       inr (ok_response "ok=true")).
Proof.
  split; [reflexivity|].
  apply (@request_hook_failure_skips_dispatch sample_runtime failing_app
           (get "http://localhost/health") failing_hook
           (thrown_error (new_Error OtherError "hook failed"))); reflexivity.
Defined.

Lemma response_hook_failure_witness :
  app_onResponse broken_hook_app = Some failing_response_hook
  ∧ @fetch sample_runtime broken_hook_app (get "http://localhost/health")
    = (trace (@handle sample_runtime (sample_router None)
                (get "http://localhost/health") ∅)
         ++ [EvOnResponse
               {| ctx_request := get "http://localhost/health";
                  ctx_raw := {| raw_params := ∅; raw_query := ∅;
                                raw_body := JUndefined |};
                  ctx_input := InputOk (JObj ∅) (JObj ∅) JUndefined;
                  ctx_locals := {[ "user" := JStr "alice"; "role" := JStr "admin" ]} |}
               (ok_response "admin");
             EvOnError (thrown_error (new_Error OtherError "hook failed"))
               (minimal_context (get "http://localhost/health"))],
       inr (ok_response "ok=true")).
Proof.
  split; [reflexivity|].
  assert (Hout :
    outcome (@handle sample_runtime (app_router broken_hook_app)
               (get "http://localhost/health") (default ∅ (Some ∅)))
    = inr {| rr_response := ok_response "admin";
             rr_context :=
               {| ctx_request := get "http://localhost/health";
                ctx_raw := {| raw_params := ∅; raw_query := ∅;
                              raw_body := JUndefined |};
                ctx_input := InputOk (JObj ∅) (JObj ∅) JUndefined;
                ctx_locals := {[ "user" := JStr "alice"; "role" := JStr "admin" ]} |} |})
    by reflexivity.
  exact (proj1 (@response_hook_failure sample_runtime broken_hook_app
                  (get "http://localhost/health") failing_response_hook (Some ∅) _
                  (thrown_error (new_Error OtherError "hook failed"))
                  eq_refl eq_refl Hout eq_refl)).
Defined.

Lemma hooks_run_in_order_witness :
  @setupHttp sample_runtime (HandlersOnly sample_handlers) = inr sample_app
  ∧ ∃ dispatch responses errors,
      trace (@fetch sample_runtime sample_app (post "http://localhost/data" "{}"))
      = dispatch ++ responses ++ errors
      ∧ Forall is_dispatch_event dispatch
      ∧ (responses = []
         ∨ ∃ c r, responses = [EvOnResponse c r] ∧ is_Some (app_onResponse sample_app))
      ∧ (errors = [] ∨ ∃ t c, errors = [EvOnError t c; EvConsoleError t]).
Proof.
  split; [reflexivity|].
  destruct (@hooks_run_in_order sample_runtime (HandlersOnly sample_handlers)
              sample_app (post "http://localhost/data" "{}") eq_refl)
    as (dispatch & responses & errors & Htrace & Hdispatch & Hresponses & Herrors).
  exists dispatch, responses, errors.
  split; [exact Htrace|]. split; [exact Hdispatch|].
  split; [exact Hresponses|exact Herrors].
Defined.

Lemma fetch_always_answers_without_hooks_witness :
  @setupHttp sample_runtime (HandlersOnly sample_handlers) = inr sample_app
  ∧ @fetch sample_runtime sample_app (post "http://localhost/data" "{}")
    = ([EvReadBody (post "http://localhost/data" "{}");
        EvOnError missing_validator_error
          (minimal_context (post "http://localhost/data" "{}"));
        EvConsoleError missing_validator_error],
       inr internal_server_error).
Proof.
  split; [reflexivity|].
  apply (@fetch_always_answers_without_hooks sample_runtime
           (HandlersOnly sample_handlers) sample_app
           (post "http://localhost/data" "{}") eq_refl I).
Defined.

Lemma request_hook_locals_seed_dispatch_witness :
  @match_ sample_runtime (app_router seeded_app) "GET" "http://localhost/health"
  = Some (matched_route health_route)
  ∧ ∃ c,
      guard_calls (trace (@fetch_try sample_runtime seeded_app
                            (get "http://localhost/health"))) !! 0%nat
      = Some (guard_user, c)
      ∧ ctx_locals c = {[ "requestId" := JStr "req-123" ]}.
Proof.
  split; [reflexivity|].
  destruct (@request_hook_locals_seed_dispatch sample_runtime seeded_app
              (get "http://localhost/health")
              (Some {[ "requestId" := JStr "req-123" ]})
              (matched_route health_route) eq_refl eq_refl (or_intror eq_refl))
    as [Hfirst _].
  exact Hfirst.
Defined.
